(** * insights-core: the allow/deny filter registry and the exploration shell

    A shallow embedding of [insights/core/blacklist.py] and of the
    reachability pass and selective evaluator of [insights/shell.py],
    with the properties of their specification proved over it.

    Python objects are modelled by value: a [set] is a [gset], a [dict] a
    [gmap], module-level globals and object attributes are fields of a
    record that is passed explicitly through every call. *)

From Stdlib Require Import Ascii String.
From stdpp Require Import gmap strings list fin_maps fin_sets.

(** ** insights/core/blacklist.py *)

Module blacklist.
Section registry.
(** The [re] module is Python's: a compiled pattern is an opaque
    hashable object, [re.compile] raises [re.error] on a malformed
    pattern ([None] here) and [Pattern.match] anchors at the start of
    its argument. *)
Context {Pattern : Type} `{!EqDecision Pattern, !Countable Pattern}.
Variable re_compile : string → option Pattern.
Variable re_match : Pattern → string → bool.

(** The five module-level sets. *)
Record Filters := mkFilters {
  _FILE_FILTERS : gset Pattern;
  _COMMAND_FILTERS : gset Pattern;
  _PATTERN_FILTERS : gset string;
  _REGEX_PATTERN_FILTERS : gset string;
  _KEYWORD_FILTERS : gset string
}.

(** The state of the module right after import. *)
Definition initial : Filters := mkFilters ∅ ∅ ∅ ∅ ∅.

(** [_FILE_FILTERS.add(re.compile(f))]: when [re.compile] raises, the
    set is not touched and the call returns no new state. *)
Definition add_file (f : string) (st : Filters) : option Filters :=
  match re_compile f with
  | Some r =>
      Some (mkFilters ({[ r ]} ∪ _FILE_FILTERS st) (_COMMAND_FILTERS st)
              (_PATTERN_FILTERS st) (_REGEX_PATTERN_FILTERS st)
              (_KEYWORD_FILTERS st))
  | None => None
  end.

Definition add_command (f : string) (st : Filters) : option Filters :=
  match re_compile f with
  | Some r =>
      Some (mkFilters (_FILE_FILTERS st) ({[ r ]} ∪ _COMMAND_FILTERS st)
              (_PATTERN_FILTERS st) (_REGEX_PATTERN_FILTERS st)
              (_KEYWORD_FILTERS st))
  | None => None
  end.

Definition add_pattern (f : string) (st : Filters) : Filters :=
  mkFilters (_FILE_FILTERS st) (_COMMAND_FILTERS st)
    ({[ f ]} ∪ _PATTERN_FILTERS st) (_REGEX_PATTERN_FILTERS st)
    (_KEYWORD_FILTERS st).

Definition add_regex_pattern (f : string) (st : Filters) : Filters :=
  mkFilters (_FILE_FILTERS st) (_COMMAND_FILTERS st)
    (_PATTERN_FILTERS st) ({[ f ]} ∪ _REGEX_PATTERN_FILTERS st)
    (_KEYWORD_FILTERS st).

Definition add_keyword (f : string) (st : Filters) : Filters :=
  mkFilters (_FILE_FILTERS st) (_COMMAND_FILTERS st)
    (_PATTERN_FILTERS st) (_REGEX_PATTERN_FILTERS st)
    ({[ f ]} ∪ _KEYWORD_FILTERS st).

(** [not any(f.match(c) for f in _FILE_FILTERS)] *)
Definition allow_file (c : string) (st : Filters) : bool :=
  negb (existsb (λ f, re_match f c) (elements (_FILE_FILTERS st))).

Definition allow_command (c : string) (st : Filters) : bool :=
  negb (existsb (λ f, re_match f c) (elements (_COMMAND_FILTERS st))).

Definition get_disallowed_patterns (st : Filters) : gset string :=
  _PATTERN_FILTERS st.

Definition get_disallowed_regex_patterns (st : Filters) : gset string :=
  _REGEX_PATTERN_FILTERS st.

Definition get_disallowed_keywords (st : Filters) : gset string :=
  _KEYWORD_FILTERS st.

(** A client of the module: one call to one of the five [add_*]
    functions.  A call that raises leaves the module state as it was. *)
Inductive Call :=
| Add_file (f : string)
| Add_command (f : string)
| Add_pattern (f : string)
| Add_regex_pattern (f : string)
| Add_keyword (f : string).

Definition call (st : Filters) (k : Call) : Filters :=
  match k with
  | Add_file f => default st (add_file f st)
  | Add_command f => default st (add_command f st)
  | Add_pattern f => add_pattern f st
  | Add_regex_pattern f => add_regex_pattern f st
  | Add_keyword f => add_keyword f st
  end.

(** The module state after a history of calls, oldest first. *)
Definition after (ks : list Call) : Filters := foldl call initial ks.

(** Which of the five functions a call is to. *)
Definition is_add_file (k : Call) : bool :=
  match k with Add_file _ => true | _ => false end.

Definition is_add_command (k : Call) : bool :=
  match k with Add_command _ => true | _ => false end.

End registry.
End blacklist.

(** ** The dependency resolver, as the shell sees it

    [insights.core.dr] and [insights.core.plugins] are used by the shell
    through a handful of names.  The tables they read are collected in a
    [Registry]; a component is a Python class or function, modelled by
    its identity. *)

Module dr.

Abbreviation Comp := positive.

(** [dr.GROUPS] *)
Inductive Group := single | cluster.

(** The component types the shell asks about ([plugins.datasource],
    [plugins.rule], [plugins.condition], [plugins.incident]) and the
    two it loads by default ([insights.parsers], [insights.combiners]). *)
Inductive ComponentType :=
| datasource | parser | combiner | condition | incident | rule.

#[global] Instance ComponentType_eq_dec : EqDecision ComponentType.
Proof. solve_decision. Defined.

(** An entry of [dr.DELEGATES]: the requires-all set and the
    alternative-groups of a component. *)
Record Delegate := mkDelegate {
  requires : list Comp;
  at_least_one : list (list Comp)
}.

Record Registry := mkRegistry {
  DELEGATES : gmap Comp Delegate;
  COMPONENTS : Group → gset Comp;
  run_order : gset Comp → list Comp;
  get_name : Comp → string;
  get_simple_name : Comp → string;
  get_base_module_name : Comp → string;
  get_component_type : Comp → ComponentType;
  get_component : string → option Comp
}.

(** Modelled from the spec: [Delegate.get_missing_dependencies] is not
    part of the shell.  A component is eligible when its requires-all
    set is contained in the known set and each alternative-group
    intersects it; otherwise the unmet requires-all members and the
    unsatisfied alternative-groups are reported. *)
Definition get_missing_dependencies (d : Delegate) (known : gset Comp)
  : option (list Comp * list (list Comp)) :=
  let missing_required :=
    List.filter (λ r, negb (bool_decide (r ∈ known))) (requires d) in
  let missing_at_least_one :=
    List.filter (λ g, negb (existsb (λ e, bool_decide (e ∈ known)) g))
      (at_least_one d) in
  match missing_required, missing_at_least_one with
  | [], [] => None
  | _, _ => Some (missing_required, missing_at_least_one)
  end.

Section broker.
Context {Value Fault : Type}.

(** [dr.Broker]: the three tables the shell reads. *)
Record Broker := mkBroker {
  instances : gmap Comp Value;
  exceptions : gmap Comp (list Fault);
  missing_requirements : gmap Comp (list Comp * list (list Comp))
}.

(** Modelled from the spec: the methods of [dr.Broker] are not part of
    the shell.  [comp in broker] is the availability predicate
    [contains]: the component holds a value. *)
Definition contains (b : Broker) (c : Comp) : bool :=
  bool_decide (c ∈ dom (instances b)).

(** Modelled from the spec: [broker.get(comp)], and [broker[comp]]
    where the shell calls it under the guard [comp in broker], return
    the value, or nothing when the component is absent, faulted or
    missing. *)
Definition get (b : Broker) (c : Comp) : option Value := instances b !! c.

(** [any([c in instances, c in exceptions, c in missing_requirements])] *)
Definition resolved (b : Broker) (c : Comp) : bool :=
  bool_decide (c ∈ dom (instances b))
  || bool_decide (c ∈ dom (exceptions b))
  || bool_decide (c ∈ dom (missing_requirements b)).

(** Everything the broker holds about one component. *)
Definition entry (b : Broker) (c : Comp)
  : option Value * option (list Fault)
    * option (list Comp * list (list Comp)) :=
  (instances b !! c, exceptions b !! c, missing_requirements b !! c).

(** Modelled from the spec: the broker's three recording operations
    ([put], [put_fault], [put_missing]) are not part of the shell.
    Each fails when the component already has a recorded value, fault
    or missing-record. *)
Definition put (c : Comp) (v : Value) (b : Broker) : option Broker :=
  if resolved b c then None
  else Some (mkBroker (<[c := v]> (instances b)) (exceptions b)
               (missing_requirements b)).

(** Modelled from the spec: [put_fault] records the captured fault. *)
Definition put_fault (c : Comp) (f : Fault) (b : Broker) : option Broker :=
  if resolved b c then None
  else Some (mkBroker (instances b) (<[c := [f]]> (exceptions b))
               (missing_requirements b)).

(** Modelled from the spec: [put_missing] records the unmet
    requires-all set and the unsatisfied alternative-groups. *)
Definition put_missing (c : Comp) (req : list Comp)
    (alo : list (list Comp)) (b : Broker) : option Broker :=
  if resolved b c then None
  else Some (mkBroker (instances b) (exceptions b)
               (<[c := (req, alo)]> (missing_requirements b))).

Variable R : Registry.

(** The body of a component, applied to the values resolved so far:
    a value, or the fault it raised. *)
Variable body : Comp → gmap Comp Value → Value + Fault.

(** Modelled from the spec: [dependencies_of], the immediate
    requires-all set plus the alternative-groups. *)
Definition dependencies (c : Comp) : list Comp :=
  match DELEGATES R !! c with
  | Some d => requires d ++ concat (at_least_one d)
  | None => []
  end.

(** Modelled from the spec: the transitive dependency closure of the
    requested components, by as many rounds of adding immediate
    dependencies as there are registered components. *)
Definition expand (s : gset Comp) : gset Comp :=
  s ∪ list_to_set (concat (dependencies <$> elements s)).

(** Modelled from the spec: [transitive_dependencies_of] the targets. *)
Definition closure (targets : list Comp) : gset Comp :=
  Nat.iter (size (DELEGATES R)) expand (list_to_set targets).

(** Modelled from the spec: one step of the scheduler [dr.run], which
    is not part of the shell.  A resolved component is skipped; an
    ineligible one gets a missing-record; otherwise the body runs and
    its value or its fault is recorded.  The second component is a
    ghost log of the components whose body was invoked. *)
Definition run_step (acc : Broker * list Comp) (c : Comp)
  : Broker * list Comp :=
  let '(b, log) := acc in
  if resolved b c then acc
  else
    match DELEGATES R !! c with
    | None => acc
    | Some d =>
        match get_missing_dependencies d (dom (instances b)) with
        | Some (req, alo) => (default b (put_missing c req alo b), log)
        | None =>
            match body c (instances b) with
            | inl v => (default b (put c v b), log ++ [c])
            | inr f => (default b (put_fault c f b), log ++ [c])
            end
        end
    end.

(** Modelled from the spec: [dr.run(targets, broker)] walks the run
    order of the closure of its targets. *)
Definition run (targets : list Comp) (b : Broker) : Broker * list Comp :=
  foldl run_step (b, []) (run_order R (closure targets)).

End broker.
Arguments Broker : clear implicits.
End dr.

(** [insights.core.plugins], as the shell uses it. *)
Module plugins.
Import dr.

(** Modelled from the spec: the tests on the kind of a component are
    not part of the shell.  A component has one kind, which the
    registry records. *)
Definition is_type (R : Registry) (c : Comp) (ts : list ComponentType) : bool :=
  bool_decide (get_component_type R c ∈ ts).

Definition is_datasource (R : Registry) (c : Comp) : bool :=
  is_type R c [datasource].

Definition is_rule (R : Registry) (c : Comp) : bool :=
  is_type R c [rule].
End plugins.

(** ** insights/shell.py *)

Module shell.
Import dr.

(** [s.replace(old, new)] for one-character [old] and [new]. *)
Fixpoint replace (old new : ascii) (s : string) : string :=
  match s with
  | EmptyString => EmptyString
  | String a s' =>
      String (if Ascii.eqb a old then new else a) (replace old new s')
  end.

(** [sep.join([a, b])] *)
Definition join2 (sep a b : string) : string := a +:+ sep +:+ b.

(** What [match] and [ignore] may be: [None], a string, or a predicate
    object of [insights.parsr.query] with its [test] method.  Of that
    module, [TRUE] and [FALSE] are the constant tests, [eq(x)] tests
    equality with [x], and [matches(p)] is a regular-expression search,
    left to the [re_search] of the section below. *)
Inductive Arg :=
| Arg_none
| Arg_str (s : string)
| Arg_pred (test : string → bool).

(** What the shell asks of its collaborators, in the order it asks: the
    coverage tracker, the scheduler (with the ghost log of the bodies it
    invoked), and what it prints. *)
Inductive Effect :=
| Cov_start
| Cov_stop
| Dr_run (targets invoked : list Comp)
| Dump_diagnostics (c : Comp)
| Print_skip (c : Comp)
| Find_listing (keys : list string).

Section shell.
Context {Value Fault : Type}.
Variable R : Registry.

(** [dr.run]: the broker it leaves and the ghost log of the component
    bodies it invoked. *)
Variable dr_run : list Comp → Broker Value Fault → Broker Value Fault * list Comp.

(** [matches(pattern).test(name)]: Python's [re.search]. *)
Variable re_search : string → string → bool.

(** The variables of [__get_available_models] while it runs: its
    argument and its two locals.  [state] is built by [set(...)], a
    copy, so [state.add] writes to the local only. *)
Record Frame := mkFrame {
  broker : Broker Value Fault;
  state : gset Comp;
  models : gmap string Comp
}.

(** The friendly name of a component. *)
Definition friendly_name (comp : Comp) : string :=
  if plugins.is_type R comp [rule; condition; incident]
  then join2 "_" (get_base_module_name R comp) (get_simple_name R comp)
  else get_simple_name R comp.

(** [models[name] = comp], after the collision branch. *)
Definition store (comp : Comp) (models : gmap string Comp) : gmap string Comp :=
  let name := friendly_name comp in
  match models !! name with
  | Some prev =>
      let models := <[replace "."%char "_"%char (get_name R prev) := prev]> models in
      let models := delete name models in
      let name := replace "."%char "_"%char (get_name R comp) in
      <[name := comp]> models
  | None => <[name := comp]> models
  end.

(** The body of the [for] loop. *)
Definition visit (fr : Frame) (comp : Comp) : Frame :=
  match DELEGATES R !! comp with
  | Some d =>
      if negb (plugins.is_datasource R comp) then
        match get_missing_dependencies d (state fr) with
        | Some _ => fr
        | None =>
            mkFrame (broker fr) ({[ comp ]} ∪ state fr)
              (store comp (models fr))
        end
      else fr
  | None => fr
  end.

(** The frame when the loop is entered. *)
Definition enter (b : Broker Value Fault) : Frame :=
  mkFrame b (dom (instances b)) ∅.

(** The frame after the loop has visited a prefix of the run order. *)
Definition walk (order : list Comp) (b : Broker Value Fault) : Frame :=
  foldl visit (enter b) order.

(** [__get_available_models(broker)]: the table it returns and the
    broker it leaves. *)
Definition get_available_models (b : Broker Value Fault)
  : gmap string Comp * Broker Value Fault :=
  let fr := walk (run_order R (COMPONENTS R single)) b in
  (models fr, broker fr).

(** The [__Models] object: the dict it is, its attributes, and the
    effects it has had so far. *)
Record Models := mkModels {
  table : gmap string Comp;
  _requested : gset (string * Comp);
  _broker : Broker Value Fault;
  _cov : bool;
  effects : list Effect
}.

(** One more effect, at the end of the log. *)
Definition emit (e : Effect) (self : Models) : Models :=
  mkModels (table self) (_requested self) (_broker self) (_cov self)
    (effects self ++ [e]).

(** [_dump_diagnostics] prints the dependency tree, the missing
    dependencies and the exceptions of a component; it reads the
    broker and writes nothing to it. *)
Definition _dump_diagnostics (comp : Comp) (self : Models) : Models :=
  emit (Dump_diagnostics comp) self.

(** [with self._coverage_tracking(): blk] *)
Definition _coverage_tracking (blk : Models → Models) (self : Models) : Models :=
  if _cov self then emit Cov_stop (blk (emit Cov_start self))
  else blk self.

(** [dr.run(targets, broker=self._broker)]; a call on one component is
    the call on the list of that component. *)
Definition call_run (targets : list Comp) (self : Models) : Models :=
  let '(b, invoked) := dr_run targets (_broker self) in
  mkModels (table self) (_requested self) b (_cov self)
    (effects self ++ [Dr_run targets invoked]).

(** [_desugar_match_ignore]: the two tests that [match] and [ignore]
    stand for. *)
Definition _desugar_match_ignore (match_ ignore : Arg) (self : Models)
  : (string → bool) * (string → bool) :=
  let match_ :=
    match match_ with
    | Arg_none => λ _, true
    | Arg_str s =>
        match table self !! s with
        | Some c => String.eqb (get_name R c)
        | None => re_search s
        end
    | Arg_pred t => t
    end in
  let ignore :=
    match ignore with
    | Arg_none => λ _, false
    | Arg_str s => re_search s
    | Arg_pred t => t
    end in
  (match_, ignore).

(** [find]: the keys it prints (in the table's order, not sorted). *)
Definition find (match_ ignore : string → bool) (self : Models) : Models :=
  emit (Find_listing
          (fst <$> List.filter
             (λ kc, match_ (get_name R kc.2) && negb (ignore (get_name R kc.2)))
             (map_to_list (table self)))) self.

(** The [tasks] list of [evaluate_all], in the order in which the
    table is enumerated (the map's, where Python has the order of
    insertion; the scheduler takes the list as a collection). *)
Definition tasks_of (match_ ignore : string → bool) (self : Models) : list Comp :=
  List.filter
    (λ c, match_ (get_name R c) && negb (ignore (get_name R c))
          && negb (resolved (_broker self) c))
    (snd <$> map_to_list (table self)).

(** [evaluate_all(match, ignore)]; it returns nothing. *)
Definition evaluate_all (match_ ignore : Arg) (self : Models) : Models :=
  let '(match_, ignore) := _desugar_match_ignore match_ ignore self in
  let tasks := tasks_of match_ ignore self in
  match tasks with
  | [] => self
  | _ =>
      let self := _coverage_tracking (call_run tasks) self in
      find match_ ignore self
  end.

(** [self.get(name) or dr.get_component(name)] *)
Definition lookup_component (name : string) (self : Models) : option Comp :=
  match table self !! name with
  | Some c => Some c
  | None => get_component R name
  end.

(** [evaluate(name)], which [__getattr__] calls too: what it returns
    and the object it leaves. *)
Definition evaluate (name : string) (self : Models) : option Value * Models :=
  match lookup_component name self with
  | None => (None, self)
  | Some comp =>
      let self :=
        if negb (plugins.is_rule R comp)
        then mkModels (table self) ({[ (name, comp) ]} ∪ _requested self)
               (_broker self) (_cov self) (effects self)
        else self in
      if contains (_broker self) comp then (get (_broker self) comp, self)
      else if bool_decide (comp ∈ dom (exceptions (_broker self)))
              || bool_decide (comp ∈ dom (missing_requirements (_broker self)))
      then (None, _dump_diagnostics comp self)
      else
        let self := _coverage_tracking (call_run [comp]) self in
        let val := get (_broker self) comp in
        let self :=
          if negb (contains (_broker self) comp) then
            if bool_decide (comp ∈ dom (exceptions (_broker self)))
               || bool_decide (comp ∈ dom (missing_requirements (_broker self)))
            then _dump_diagnostics comp self
            else emit (Print_skip comp) self
          else self in
        (val, self)
  end.

(** One request of the operator in a session, and a session of them. *)
Inductive Request :=
| Evaluate (name : string)
| Evaluate_all (match_ ignore : Arg).

Definition serve (self : Models) (q : Request) : Models :=
  match q with
  | Evaluate name => snd (evaluate name self)
  | Evaluate_all m i => evaluate_all m i self
  end.

Definition session (qs : list Request) (self : Models) : Models :=
  foldl serve self qs.

(** The scheduler calls among some effects, and the bodies they invoked. *)
Definition scheduler_calls (es : list Effect) : list (list Comp) :=
  omap (λ e, match e with Dr_run ts _ => Some ts | _ => None end) es.

Definition bodies_invoked (es : list Effect) : list Comp :=
  concat (omap (λ e, match e with Dr_run _ inv => Some inv | _ => None end) es).

(** [val.get("type")] of the value of a rule, a response. *)
Variable response_type : Value → option string.

(** [_get_color(comp)]: the colour a component is shown in. *)
Definition _get_color (comp : Comp) (self : Models) : string :=
  if contains (_broker self) comp then
    if plugins.is_type R comp [rule]
       && match get (_broker self) comp with
          | Some v => bool_decide (response_type v = Some "skip")
          | None => false
          end
    then "yellow"
    else "green"
  else if bool_decide (comp ∈ dom (exceptions (_broker self))) then "red"
  else if bool_decide (comp ∈ dom (missing_requirements (_broker self)))
  then "yellow"
  else "".

End shell.
Arguments Frame : clear implicits.
Arguments Models : clear implicits.

(** The last step of [make_rule]: what it does with the text [res] it
    has built, given [self._cwd].  The file system maps the paths that
    exist to their contents; writing to a path always succeeds. *)
Section make_rule.
(** [os.path.realpath] *)
Variable realpath : string → string.

Fixpoint ends_with_slash (s : string) : bool :=
  match s with
  | EmptyString => false
  | String a EmptyString => Ascii.eqb a "/"
  | String _ s' => ends_with_slash s'
  end.

(** [os.path.join(a, b)] *)
Definition path_join (a b : string) : string :=
  if String.prefix "/" b then b
  else if String.eqb a "" || ends_with_slash a then a +:+ b
  else a +:+ "/" +:+ b.

(** What the operator sees: the two messages, the editor opened on
    the file, or the text in the pager. *)
Inductive Shown :=
| Print_exists (path : string)
| Edit (path : string)
| Print_saved (path : string)
| Page (res : string).

(** The path [make_rule] writes to: a relative path whose real path
    is not under [self._cwd] is taken from [self._cwd]. *)
Definition target (cwd path : string) : string :=
  if negb (String.prefix "/" path) then
    if negb (String.prefix cwd (realpath path)) then path_join cwd path
    else path
  else path.

Definition make_rule_output (cwd res : string) (path : option string)
    (overwrite : bool) (fs : gmap string string)
  : gmap string string * list Shown :=
  match path with
  | None => (fs, [Page res])
  | Some path =>
      if String.eqb path "" then (fs, [Page res])
      else
        let path := target cwd path in
        if bool_decide (path ∈ dom fs) && negb overwrite
        then (fs, [Print_exists path])
        else if negb (bool_decide (path ∈ dom fs)) || overwrite
        then (<[path := res]> fs, [Edit path; Print_saved path])
        else (fs, [])
  end.
End make_rule.
End shell.

(** ** insights/client/client.py: registration and unregistration *)

Module client.

(** The fields of [config] the two workflows read.  A string option is
    [None] or a string; Python takes [None] and the empty string for
    false. *)
Record Config := mkConfig {
  legacy_upload : bool;
  reregister : bool;
  register_option : bool;
  display_name : option string;
  group : option string;
  username : option string;
  password : option string;
  authmethod : string;
  auto_config : bool
}.

Definition falsy (s : option string) : bool :=
  match s with
  | None => true
  | Some s => String.eqb s ""
  end.

(** [str(x)] in a [%s] *)
Definition str (s : option string) : string := default "None" s.

(** The dict [registration_check(pconn)] returns. *)
Record Check := mkCheck {
  messages : list string;
  unreachable : bool;
  status : bool;
  unreg_date : option string
}.

(** What the connection answers: to the registration check, to
    [pconn.register()] (message, hostname, group, display name) and to
    [pconn.unregister()]. *)
Record Connection := mkConnection {
  check_answer : Check;
  register_answer : string * option string * option string * option string;
  unregister_answer : bool
}.

Inductive Level := Debug | Info | Error.

(** What the workflows do to the host and ask of the API, in order. *)
Inductive Effect :=
| Delete_registered_file
| Delete_unregistered_file
| Delete_machine_id
| Generate_machine_id (new : bool)
| Write_registered_file
| Write_unregistered_file (date : option string)
| Remove_scheduling
| Delete_cache_files
| Api_check
| Api_register
| Api_unregister
| Log (level : Level) (msg : string).

(** What [register] returns: [False], or the tuple of the API. *)
Inductive Registered :=
| Reg_false
| Reg_tuple (answer : string * option string * option string * option string).

(** A call returns [True], [False] or [None], or raises. *)
Inductive Outcome :=
| Returned (r : option bool)
| Raised (exn : string).

Section workflows.
(** [generate_machine_id(new=...)] *)
Variable generate_machine_id : bool → string.

Definition register (config : Config) (pconn : Connection)
  : Registered * list Effect :=
  if falsy (username config) && falsy (password config)
     && negb (auto_config config)
     && String.eqb (authmethod config) "BASIC"
  then (Reg_false,
        [Log Debug "Username and password must be defined in configuration file with BASIC authentication method."])
  else (Reg_tuple (register_answer pconn), [Api_register]).

(** [get_registration_status(config, pconn)] *)
Definition get_registration_status (config : Config) (pconn : Connection)
  : Check * list Effect :=
  (check_answer pconn, [Api_check]).

Definition _legacy_handle_registration (config : Config)
    (pconn : Connection) : Outcome * list Effect :=
  let es := [Log Debug "Trying registration."] in
  let es :=
    if reregister config
    then es ++ [Delete_registered_file; Delete_unregistered_file;
                Delete_machine_id;
                Log Debug "Re-register set, forcing registration."]
    else es in
  let es :=
    es ++ [Generate_machine_id (reregister config);
           Log Debug ("Machine-id: "
                      +:+ generate_machine_id (reregister config))] in
  let '(check, es') := get_registration_status config pconn in
  let es := es ++ es' ++ (Log Debug <$> messages check) in
  if unreachable check then (Returned None, es)
  else if status check then
    let es :=
      if register_option config
      then es ++ [Log Info "This host has already been registered."]
      else es in
    (Returned (Some true), es ++ [Write_registered_file])
  else if register_option config then
    let '(reg, es') := register config pconn in
    let es := es ++ es' in
    match reg with
    | Reg_false => (Raised "TypeError", es)
    | Reg_tuple (message, hostname, group_, display_name_) =>
        if falsy hostname then (Returned None, es ++ [Log Error message])
        else
          let es :=
            if bool_decide (display_name config = None)
               && bool_decide (group config = None)
            then es ++ [Log Info ("Successfully registered host "
                                  +:+ str hostname)]
            else if bool_decide (display_name config = None)
            then es ++ [Log Info ("Successfully registered host "
                                  +:+ str hostname +:+ " in group "
                                  +:+ str group_)]
            else es ++ [Log Info ("Successfully registered host "
                                  +:+ str hostname +:+ " as "
                                  +:+ str display_name_ +:+ " in group "
                                  +:+ str group_)] in
          let es :=
            if String.eqb message "" then es
            else es ++ [Log Info message] in
          (Returned (Some true), es ++ [Write_registered_file])
    end
  else
    let es := es ++ [Write_unregistered_file (unreg_date check)] in
    let es :=
      if negb (falsy (unreg_date check))
      then es ++ [Log Info "This machine has been unregistered. Use --register if you would like to re-register this machine."]
      else es ++ [Log Info "This machine has not yet been registered.Use --register to register this machine."] in
    (Returned (Some false), es).

Definition handle_registration (config : Config) (pconn : Connection)
  : Outcome * list Effect :=
  if legacy_upload config then _legacy_handle_registration config pconn
  else (Returned None, []).

Definition _legacy_handle_unregistration (config : Config)
    (pconn : Connection) : option bool * list Effect :=
  let '(check, es) := get_registration_status config pconn in
  let es := es ++ (Log Debug <$> messages check) in
  if unreachable check then (None, es)
  else
    let '(unreg, es) :=
      if status check
      then (unregister_answer pconn, es ++ [Api_unregister])
      else (true, es ++ [Log Info "This system is already unregistered."]) in
    let es :=
      if unreg
      then es ++ [Write_unregistered_file None; Remove_scheduling;
                  Delete_cache_files]
      else es in
    (Some unreg, es).

Definition handle_unregistration (config : Config) (pconn : Connection)
  : option bool * list Effect :=
  if legacy_upload config then _legacy_handle_unregistration config pconn
  else
    let unreg := unregister_answer pconn in
    let es := [Api_unregister] in
    let es :=
      if unreg then es ++ [Write_unregistered_file None; Delete_cache_files]
      else es in
    (Some unreg, es).

(** The marker files written, and the local clean-up done, among
    some effects. *)
Definition markers (es : list Effect) : list Effect :=
  List.filter
    (λ e, match e with
          | Write_registered_file | Write_unregistered_file _ => true
          | _ => false
          end) es.

Definition cleanup (es : list Effect) : list Effect :=
  List.filter
    (λ e, match e with
          | Write_unregistered_file _ | Remove_scheduling
          | Delete_cache_files => true
          | _ => false
          end) es.

Definition deletions (es : list Effect) : list Effect :=
  List.filter
    (λ e, match e with
          | Delete_registered_file | Delete_unregistered_file
          | Delete_machine_id => true
          | _ => false
          end) es.

Definition api_calls (es : list Effect) : list Effect :=
  List.filter
    (λ e, match e with
          | Api_check | Api_register | Api_unregister => true
          | _ => false
          end) es.
End workflows.
End client.

(** ** The words of the specification

    The conditions the specification states in prose, as propositions
    to compare the code with. *)

Module spec.
Import dr.

(** A requires-all set contained in the known set, and every
    alternative-group intersecting it. *)
Definition eligible (d : Delegate) (known : gset Comp) : Prop :=
  (∀ r, r ∈ requires d → r ∈ known)
  ∧ (∀ g, g ∈ at_least_one d → ∃ e, e ∈ g ∧ e ∈ known).

(** What the loop of [__get_available_models] asks of a component
    before it adds it: registered, not a data-source, eligible. *)
Definition admitted (R : Registry) (known : gset Comp) (c : Comp) : Prop :=
  ∃ d, DELEGATES R !! c = Some d
       ∧ plugins.is_datasource R c = false
       ∧ eligible d known.

(** A component the loop can store: registered and not a
    data-source. *)
Definition storable (R : Registry) (c : Comp) : bool :=
  bool_decide (is_Some (DELEGATES R !! c))
  && negb (plugins.is_datasource R c).

(** The keys of the collision branch cannot clash: among the
    components of the order that can be stored, the qualified names
    with underscores for dots are pairwise distinct and none of them
    is the friendly name of a component. *)
Definition names_safe (R : Registry) (order : list Comp) : bool :=
  forallb
    (λ c,
       forallb
         (λ c',
            negb (storable R c && storable R c')
            || (negb (String.eqb
                        (shell.replace "."%char "_"%char (get_name R c))
                        (shell.friendly_name R c'))
                && (negb (String.eqb
                            (shell.replace "."%char "_"%char (get_name R c))
                            (shell.replace "."%char "_"%char (get_name R c')))
                    || Pos.eqb c c')))
         order)
    order.

(** Coverage tracked around the scheduler and nowhere else: with a
    coverage tracker, the scheduler is called only between a start and
    a stop of the tracker and these enclose nothing else; without one,
    the tracker is never started or stopped. *)
Fixpoint well_tracked (cov : bool) (es : list shell.Effect) : bool :=
  match es with
  | [] => true
  | shell.Cov_start :: es1 =>
      match es1 with
      | shell.Dr_run _ _ :: es2 =>
          match es2 with
          | shell.Cov_stop :: es3 => cov && well_tracked cov es3
          | _ => false
          end
      | _ => false
      end
  | shell.Cov_stop :: _ => false
  | shell.Dr_run _ _ :: es1 => negb cov && well_tracked cov es1
  | _ :: es1 => well_tracked cov es1
  end.

(** The effects of one scheduler call under coverage tracking. *)
Definition tracked (cov : bool) (ts inv : list Comp) : list shell.Effect :=
  if cov then [shell.Cov_start; shell.Dr_run ts inv; shell.Cov_stop]
  else [shell.Dr_run ts inv].

(** The effects a request can add. *)
Inductive request_effects (cov : bool) : list shell.Effect → Prop :=
| re_nothing : request_effects cov []
| re_diagnostics c : request_effects cov [shell.Dump_diagnostics c]
| re_run ts inv : request_effects cov (tracked cov ts inv)
| re_run_diagnostics ts inv c :
    request_effects cov (tracked cov ts inv ++ [shell.Dump_diagnostics c])
| re_run_skip ts inv c :
    request_effects cov (tracked cov ts inv ++ [shell.Print_skip c])
| re_run_find ts inv keys :
    request_effects cov (tracked cov ts inv ++ [shell.Find_listing keys]).
End spec.

(** ** Concrete instances

    A small registry and a few brokers on which the definitions above
    are evaluated. *)

Module demo.
Import dr.

(** Patterns without metacharacters: compiling returns the text, a lone
    opening parenthesis is malformed, matching is being a prefix. *)
Definition literal_compile (f : string) : option string :=
  if String.eqb f "(" then None else Some f.

Definition literal_match (r c : string) : bool := String.prefix r c.

(** Searching for a literal: being a substring. *)
Fixpoint literal_search (r c : string) : bool :=
  String.prefix r c
  || match c with
     | EmptyString => false
     | String _ c' => literal_search r c'
     end.

(** Two data-sources, a parser over each, and a rule over the parsers. *)
Definition hostname : Comp := 1%positive.
Definition Hostname : Comp := 2%positive.
Definition uname : Comp := 3%positive.
Definition Uname : Comp := 4%positive.
Definition report : Comp := 5%positive.

Definition names : list (Comp * (string * string * string * ComponentType)) :=
  [ (hostname, ("insights.specs.Specs.hostname", "hostname", "specs", datasource));
    (Hostname, ("insights.parsers.hostname.Hostname", "Hostname", "hostname", parser));
    (uname, ("insights.specs.Specs.uname", "uname", "specs", datasource));
    (Uname, ("insights.parsers.uname.Uname", "Uname", "uname", parser));
    (report, ("rules.kernel_check.report", "report", "kernel_check", rule)) ].

Definition attr {A} (names : list (Comp * (string * string * string * ComponentType)))
    (proj : string * string * string * ComponentType → A) (dflt : A)
    (c : Comp) : A :=
  match List.find (λ e, Pos.eqb e.1 c) names with
  | Some e => proj e.2
  | None => dflt
  end.

Definition by_name (names : list (Comp * (string * string * string * ComponentType)))
    (name : string) : option Comp :=
  fst <$> List.find (λ e, String.eqb e.2.1.1.1 name) names.

Definition in_order (order : list Comp) (s : gset Comp) : list Comp :=
  List.filter (λ c, bool_decide (c ∈ s)) order.

Definition registry : Registry :=
  mkRegistry
    (list_to_map
       [ (hostname, mkDelegate [] []);
         (Hostname, mkDelegate [hostname] []);
         (uname, mkDelegate [] []);
         (Uname, mkDelegate [uname] []);
         (report, mkDelegate [Hostname] [[Uname; Hostname]]) ])
    (λ g, match g with
          | single => list_to_set [hostname; Hostname; uname; Uname; report]
          | cluster => ∅
          end)
    (in_order [hostname; uname; Hostname; Uname; report])
    (attr names (λ a, a.1.1.1) "")
    (attr names (λ a, a.1.1.2) "")
    (attr names (λ a, a.1.2) "")
    (attr names (λ a, a.2) parser)
    (by_name names).

(** The data-sources have run: [hostname] produced a value, [uname]
    chose to skip and left no trace. *)
Definition seeded : Broker string string :=
  mkBroker {[ hostname := "host1" ]} ∅ ∅.

(** As [seeded], with the parser [Hostname] already run and faulted. *)
Definition faulted : Broker string string :=
  mkBroker {[ hostname := "host1" ]} {[ Hostname := ["ParseException"] ]} ∅.

Definition empty_broker : Broker string string := mkBroker ∅ ∅ ∅.

(** Component bodies: data-sources and parsers return a text, the rule
    raises. *)
Definition bodies (c : Comp) (vals : gmap Comp string) : string + string :=
  if Pos.eqb c report then inr "rule failed"
  else inl (attr names (λ a, a.1.1.2) "" c).

(** Two rules called [report], one in the top-level module [foo], one
    in [pkg.foo]; neither requires anything. *)
Definition foo_report : Comp := 1%positive.
Definition pkg_foo_report : Comp := 2%positive.

Definition rule_names : list (Comp * (string * string * string * ComponentType)) :=
  [ (foo_report, ("foo.report", "report", "foo", rule));
    (pkg_foo_report, ("pkg.foo.report", "report", "foo", rule)) ].

Definition rules : Registry :=
  mkRegistry
    (list_to_map
       [ (foo_report, mkDelegate [] []); (pkg_foo_report, mkDelegate [] []) ])
    (λ g, match g with
          | single => list_to_set [foo_report; pkg_foo_report]
          | cluster => ∅
          end)
    (in_order [foo_report; pkg_foo_report])
    (attr rule_names (λ a, a.1.1.1) "")
    (attr rule_names (λ a, a.1.1.2) "")
    (attr rule_names (λ a, a.1.2) "")
    (attr rule_names (λ a, a.2) parser)
    (by_name rule_names).

(** The same two rules, in the other run order. *)
Definition rules_reversed : Registry :=
  mkRegistry (DELEGATES rules) (COMPONENTS rules)
    (in_order [pkg_foo_report; foo_report])
    (get_name rules) (get_simple_name rules) (get_base_module_name rules)
    (get_component_type rules) (get_component rules).

(** A Python object that is no component: [os.getcwd], which
    [dr.get_component] finds by importing [os].  The registry is the
    one above, with this one more name resolvable. *)
Definition os_getcwd : Comp := 9%positive.

Definition with_import : Registry :=
  mkRegistry (DELEGATES registry) (COMPONENTS registry)
    (run_order registry)
    (get_name registry) (get_simple_name registry)
    (get_base_module_name registry) (get_component_type registry)
    (λ name, if String.eqb name "os.getcwd" then Some os_getcwd
             else get_component registry name).

(** The shell's object at the start of a session over a broker. *)
Definition start (R : Registry) (b : Broker string string)
  : shell.Models string string :=
  shell.mkModels (shell.get_available_models R b).1 ∅ b false [].


(** The real path of a relative path when the shell has changed into
    the directory of an extracted archive. *)
Definition archive_realpath (path : string) : string :=
  "/tmp/archive/" +:+ path.
End demo.

(** * Properties *)

(** ** The filter registry *)

Section blacklist_facts.
Import blacklist.
Context {Pattern : Type} `{!EqDecision Pattern, !Countable Pattern}.
Variable re_compile : string → option Pattern.
Variable re_match : Pattern → string → bool.

Lemma no_match_iff (c : string) (s : gset Pattern) :
  negb (existsb (λ f, re_match f c) (elements s)) = true
  ↔ ∀ r, r ∈ s → re_match r c = false.
Proof.
  rewrite negb_true_iff. split.
  - intros Hnone r Hr.
    destruct (re_match r c) eqn:Hm; [|done].
    assert (existsb (λ f, re_match f c) (elements s) = true) as Hsome.
    { apply existsb_exists. exists r. split; [|done].
      apply list_elem_of_In, elem_of_elements, Hr. }
    congruence.
  - intros Hall.
    destruct (existsb _ _) eqn:Hex; [|done].
    apply existsb_exists in Hex as (r & Hin & Hm).
    apply list_elem_of_In, elem_of_elements in Hin.
    rewrite (Hall r Hin) in Hm. done.
Qed.

Lemma call_file_filters (st : Filters) (k : Call) (r : Pattern) :
  r ∈ _FILE_FILTERS (call re_compile st k)
  ↔ r ∈ _FILE_FILTERS st ∨ ∃ f, k = Add_file f ∧ re_compile f = Some r.
Proof.
  destruct k as [f|f|f|f|f]; simpl; unfold add_file, add_command;
    try (match goal with
         | |- context [re_compile ?g] => destruct (re_compile g) as [r'|] eqn:Hc
         end); simpl;
    try (split; [by left|intros [?|(f' & Heq & _)]; [done|discriminate]]).
  - rewrite elem_of_union, elem_of_singleton. split.
    + intros [->|?]; [right; by exists f|by left].
    + intros [?|(f' & Heq & Hf')]; [by right|].
      injection Heq as <-. left. congruence.
  - split; [by left|]. intros [?|(f' & Heq & Hf')]; [done|].
    injection Heq as <-. congruence.
Qed.

Lemma call_command_filters (st : Filters) (k : Call) (r : Pattern) :
  r ∈ _COMMAND_FILTERS (call re_compile st k)
  ↔ r ∈ _COMMAND_FILTERS st ∨ ∃ f, k = Add_command f ∧ re_compile f = Some r.
Proof.
  destruct k as [f|f|f|f|f]; simpl; unfold add_file, add_command;
    try (match goal with
         | |- context [re_compile ?g] => destruct (re_compile g) as [r'|] eqn:Hc
         end); simpl;
    try (split; [by left|intros [?|(f' & Heq & _)]; [done|discriminate]]).
  - rewrite elem_of_union, elem_of_singleton. split.
    + intros [->|?]; [right; by exists f|by left].
    + intros [?|(f' & Heq & Hf')]; [by right|].
      injection Heq as <-. left. congruence.
  - split; [by left|]. intros [?|(f' & Heq & Hf')]; [done|].
    injection Heq as <-. congruence.
Qed.

Lemma call_patterns (st : Filters) (k : Call) (p : string) :
  p ∈ _PATTERN_FILTERS (call re_compile st k)
  ↔ p ∈ _PATTERN_FILTERS st ∨ k = Add_pattern p.
Proof.
  destruct k as [f|f|f|f|f]; simpl; unfold add_file, add_command;
    try (match goal with
         | |- context [re_compile ?g] => destruct (re_compile g)
         end); simpl;
    try (split; [by left|intros [?|?]; [done|discriminate]]).
  rewrite elem_of_union, elem_of_singleton. split.
  - intros [->|?]; [by right|by left].
  - intros [?|Heq]; [by right|]. injection Heq as <-. by left.
Qed.

Lemma call_regex_patterns (st : Filters) (k : Call) (p : string) :
  p ∈ _REGEX_PATTERN_FILTERS (call re_compile st k)
  ↔ p ∈ _REGEX_PATTERN_FILTERS st ∨ k = Add_regex_pattern p.
Proof.
  destruct k as [f|f|f|f|f]; simpl; unfold add_file, add_command;
    try (match goal with
         | |- context [re_compile ?g] => destruct (re_compile g)
         end); simpl;
    try (split; [by left|intros [?|?]; [done|discriminate]]).
  rewrite elem_of_union, elem_of_singleton. split.
  - intros [->|?]; [by right|by left].
  - intros [?|Heq]; [by right|]. injection Heq as <-. by left.
Qed.

Lemma call_keywords (st : Filters) (k : Call) (p : string) :
  p ∈ _KEYWORD_FILTERS (call re_compile st k)
  ↔ p ∈ _KEYWORD_FILTERS st ∨ k = Add_keyword p.
Proof.
  destruct k as [f|f|f|f|f]; simpl; unfold add_file, add_command;
    try (match goal with
         | |- context [re_compile ?g] => destruct (re_compile g)
         end); simpl;
    try (split; [by left|intros [?|?]; [done|discriminate]]).
  rewrite elem_of_union, elem_of_singleton. split.
  - intros [->|?]; [by right|by left].
  - intros [?|Heq]; [by right|]. injection Heq as <-. by left.
Qed.

(** A property of the state after a history, from what one call does
    to it: the members of a set are those it had plus those some call
    of the history added. *)
Lemma history_members `{Countable A} (proj : Filters → gset A)
    (added : Call → A → Prop) :
  (∀ st k x, x ∈ proj (call re_compile st k) ↔ x ∈ proj st ∨ added k x) →
  ∀ ks st x,
    x ∈ proj (foldl (call re_compile) st ks)
    ↔ x ∈ proj st ∨ ∃ k, k ∈ ks ∧ added k x.
Proof.
  intros Hstep ks. induction ks as [|k ks IH]; intros st x; simpl.
  - split; [by left|]. intros [?|(k & Hk & _)]; [done|].
    by apply elem_of_nil in Hk.
  - rewrite IH, Hstep. split.
    + intros [[?|?]|(k' & ? & ?)]; [by left| |].
      * right. exists k. split; [left|done].
      * right. exists k'. split; [by right|done].
    + intros [?|(k' & Hk' & ?)]; [by left; left|].
      apply elem_of_cons in Hk' as [->|?]; [by left; right|].
      right. by exists k'.
Qed.

(** C7: [allow_file] ([allow_command]) answers true exactly when no
    registered disallowed-file (disallowed-command) pattern matches the
    input; after any history of [add_*] calls the registered patterns
    are the compiled forms of the strings passed to [add_file]
    ([add_command]), and the three accessors return exactly the content
    patterns, regex patterns and keywords that were added. *)
Theorem blacklist_queries (ks : list Call) (st : Filters) (c : string) :
  (allow_file re_match c st = true
     ↔ ∀ r, r ∈ _FILE_FILTERS st → re_match r c = false)
  ∧ (allow_command re_match c st = true
     ↔ ∀ r, r ∈ _COMMAND_FILTERS st → re_match r c = false)
  ∧ (∀ r, r ∈ _FILE_FILTERS (after re_compile ks)
          ↔ ∃ f, Add_file f ∈ ks ∧ re_compile f = Some r)
  ∧ (∀ r, r ∈ _COMMAND_FILTERS (after re_compile ks)
          ↔ ∃ f, Add_command f ∈ ks ∧ re_compile f = Some r)
  ∧ (∀ p, p ∈ get_disallowed_patterns (after re_compile ks)
          ↔ Add_pattern p ∈ ks)
  ∧ (∀ p, p ∈ get_disallowed_regex_patterns (after re_compile ks)
          ↔ Add_regex_pattern p ∈ ks)
  ∧ (∀ p, p ∈ get_disallowed_keywords (after re_compile ks)
          ↔ Add_keyword p ∈ ks).
Proof.
  split; [apply no_match_iff|]. split; [apply no_match_iff|].
  unfold after, get_disallowed_patterns, get_disallowed_regex_patterns,
    get_disallowed_keywords.
  repeat split.
  - intros Hr.
    apply (history_members _FILE_FILTERS
             (λ k x, ∃ f, k = Add_file f ∧ re_compile f = Some x)
             call_file_filters) in Hr as [Hr|(k & Hk & f & -> & Hf)].
    + by apply not_elem_of_empty in Hr.
    + by exists f.
  - intros (f & Hf & Hc).
    apply (history_members _FILE_FILTERS
             (λ k x, ∃ f, k = Add_file f ∧ re_compile f = Some x)
             call_file_filters).
    right. exists (Add_file f). split; [done|by exists f].
  - intros Hr.
    apply (history_members _COMMAND_FILTERS
             (λ k x, ∃ f, k = Add_command f ∧ re_compile f = Some x)
             call_command_filters) in Hr as [Hr|(k & Hk & f & -> & Hf)].
    + by apply not_elem_of_empty in Hr.
    + by exists f.
  - intros (f & Hf & Hc).
    apply (history_members _COMMAND_FILTERS
             (λ k x, ∃ f, k = Add_command f ∧ re_compile f = Some x)
             call_command_filters).
    right. exists (Add_command f). split; [done|by exists f].
  - intros Hp.
    apply (history_members _PATTERN_FILTERS (λ k x, k = Add_pattern x)
             call_patterns) in Hp as [Hp|(k & Hk & ->)]; [|done].
    by apply not_elem_of_empty in Hp.
  - intros Hp.
    apply (history_members _PATTERN_FILTERS (λ k x, k = Add_pattern x)
             call_patterns).
    right. by exists (Add_pattern p).
  - intros Hp.
    apply (history_members _REGEX_PATTERN_FILTERS
             (λ k x, k = Add_regex_pattern x) call_regex_patterns)
      in Hp as [Hp|(k & Hk & ->)]; [|done].
    by apply not_elem_of_empty in Hp.
  - intros Hp.
    apply (history_members _REGEX_PATTERN_FILTERS
             (λ k x, k = Add_regex_pattern x) call_regex_patterns).
    right. by exists (Add_regex_pattern p).
  - intros Hp.
    apply (history_members _KEYWORD_FILTERS (λ k x, k = Add_keyword x)
             call_keywords) in Hp as [Hp|(k & Hk & ->)]; [|done].
    by apply not_elem_of_empty in Hp.
  - intros Hp.
    apply (history_members _KEYWORD_FILTERS (λ k x, k = Add_keyword x)
             call_keywords).
    right. by exists (Add_keyword p).
Qed.

(** C8: registering a file (command) filter never turns a refusal of
    [allow_file] ([allow_command]) into an acceptance, and with no file
    (command) filter registered every input is allowed. *)
Theorem filters_only_shrink (st : Filters) (p s : string) :
  (allow_file re_match s st = false →
     allow_file re_match s (call re_compile st (Add_file p)) = false)
  ∧ (allow_command re_match s st = false →
     allow_command re_match s (call re_compile st (Add_command p)) = false)
  ∧ (_FILE_FILTERS st = ∅ → allow_file re_match s st = true)
  ∧ (_COMMAND_FILTERS st = ∅ → allow_command re_match s st = true).
Proof.
  repeat split.
  - intros Hno. apply not_true_iff_false. intros Hyes.
    apply not_true_iff_false in Hno. apply Hno.
    apply no_match_iff. intros r Hr.
    apply (proj1 (no_match_iff _ _) Hyes).
    apply call_file_filters. by left.
  - intros Hno. apply not_true_iff_false. intros Hyes.
    apply not_true_iff_false in Hno. apply Hno.
    apply no_match_iff. intros r Hr.
    apply (proj1 (no_match_iff _ _) Hyes).
    apply call_command_filters. by left.
  - intros Hnone. apply no_match_iff. intros r Hr.
    rewrite Hnone in Hr. by apply not_elem_of_empty in Hr.
  - intros Hnone. apply no_match_iff. intros r Hr.
    rewrite Hnone in Hr. by apply not_elem_of_empty in Hr.
Qed.
End blacklist_facts.

Section blacklist_examples.
Import demo.

(** A path refused by one filter is still refused after another filter
    is registered. *)
Lemma filters_only_shrink_witness :
  blacklist.allow_file literal_match "/etc/shadow"
    (blacklist.call literal_compile
       (blacklist.after literal_compile [blacklist.Add_file "/etc/sh"])
       (blacklist.Add_file "/var"))
  = false.
Proof.
  refine (proj1 (filters_only_shrink literal_compile literal_match
                   (blacklist.after literal_compile
                      [blacklist.Add_file "/etc/sh"])
                   "/var" "/etc/shadow") _).
  vm_compute. reflexivity.
Defined.
End blacklist_examples.

(** ** The reachability pass *)

Section reachability_facts.
Import dr shell spec.
Context {Value Fault : Type}.
Variable R : Registry.

Implicit Types (b : Broker Value Fault) (fr : Frame Value Fault).
Implicit Types (c comp : Comp) (order pre post : list Comp).

Lemma filter_nil_iff {A} (f : A → bool) (l : list A) :
  List.filter f l = [] ↔ ∀ x, x ∈ l → f x = false.
Proof.
  induction l as [|a l IH]; simpl.
  - split; [|done]. intros _ x Hx. by apply elem_of_nil in Hx.
  - destruct (f a) eqn:Hfa.
    + split; [done|]. intros Hall.
      rewrite (Hall a) in Hfa; [done|by left].
    + rewrite IH. split.
      * intros Hall x Hx. apply elem_of_cons in Hx as [->|Hx]; auto.
      * intros Hall x Hx. apply Hall. by right.
Qed.

(** The modelled dependency check finds nothing missing exactly when
    the component is eligible in the words of the specification. *)
Lemma get_missing_dependencies_None (d : Delegate) (known : gset Comp) :
  get_missing_dependencies d known = None ↔ eligible d known.
Proof.
  unfold get_missing_dependencies, eligible.
  set (mr := List.filter _ (requires d)).
  set (ma := List.filter _ (at_least_one d)).
  assert (mr = [] ∧ ma = [] ↔
          (∀ r, r ∈ requires d → r ∈ known)
          ∧ (∀ g, g ∈ at_least_one d → ∃ e, e ∈ g ∧ e ∈ known)) as Hiff.
  { unfold mr, ma. rewrite !filter_nil_iff. split.
    - intros [Hreq Halo]. split.
      + intros r Hr. specialize (Hreq r Hr).
        apply negb_false_iff, bool_decide_eq_true in Hreq. done.
      + intros g Hg. specialize (Halo g Hg).
        apply negb_false_iff, existsb_exists in Halo as (e & Hin & He).
        exists e. split; [by apply list_elem_of_In|].
        by apply bool_decide_eq_true in He.
    - intros [Hreq Halo]. split.
      + intros r Hr. apply negb_false_iff, bool_decide_eq_true. auto.
      + intros g Hg. destruct (Halo g Hg) as (e & Hin & He).
        apply negb_false_iff, existsb_exists. exists e.
        split; [by apply list_elem_of_In|by apply bool_decide_eq_true]. }
  rewrite <- Hiff. clear Hiff.
  destruct mr, ma; split; try done; intros [? ?]; done.
Qed.

Lemma visit_admitted fr comp :
  admitted R (state fr) comp →
  visit R fr comp
  = mkFrame (broker fr) ({[ comp ]} ∪ state fr) (store R comp (models fr)).
Proof.
  intros (d & Hd & Hds & Hel). unfold visit. rewrite Hd, Hds. simpl.
  apply get_missing_dependencies_None in Hel. by rewrite Hel.
Qed.

Lemma visit_not_admitted fr comp :
  ¬ admitted R (state fr) comp → visit R fr comp = fr.
Proof.
  intros Hnot. unfold visit.
  destruct (DELEGATES R !! comp) as [d|] eqn:Hd; [|done].
  destruct (plugins.is_datasource R comp) eqn:Hds; simpl; [done|].
  destruct (get_missing_dependencies d (state fr)) eqn:Hm; [done|].
  destruct Hnot. exists d. repeat split; try done.
  all: by apply get_missing_dependencies_None in Hm as [? ?].
Qed.

Lemma admitted_dec (known : gset Comp) comp :
  admitted R known comp ∨ ¬ admitted R known comp.
Proof.
  destruct (DELEGATES R !! comp) as [d|] eqn:Hd.
  - destruct (plugins.is_datasource R comp) eqn:Hds.
    + right. intros (d' & _ & ? & _). congruence.
    + destruct (get_missing_dependencies d known) eqn:Hm.
      * right. intros (d' & Hd' & _ & Hel).
        assert (d' = d) as -> by congruence.
        apply get_missing_dependencies_None in Hel. congruence.
      * left. exists d. repeat split; try done.
        all: by apply get_missing_dependencies_None in Hm as [? ?].
  - right. intros (d' & ? & _). congruence.
Qed.

(** The component just stored is in the table. *)
Lemma store_lookup_self comp (m : gmap string Comp) :
  ∃ key, store R comp m !! key = Some comp.
Proof.
  unfold store. destruct (m !! friendly_name R comp).
  - eexists. apply lookup_insert_eq.
  - eexists. apply lookup_insert_eq.
Qed.

(** Storing brings no component into the table but the stored one. *)
Lemma store_lookup_inv comp (m : gmap string Comp) key c :
  store R comp m !! key = Some c →
  c = comp ∨ ∃ key', m !! key' = Some c.
Proof.
  unfold store. destruct (m !! friendly_name R comp) as [prev|] eqn:Hprev.
  - rewrite lookup_insert. case_decide; [intros [= <-]; by left|].
    rewrite lookup_delete. case_decide; [done|].
    rewrite lookup_insert. case_decide.
    + intros [= <-]. right. eauto.
    + intros Hc. right. eauto.
  - rewrite lookup_insert. case_decide; [intros [= <-]; by left|].
    intros Hc. right. eauto.
Qed.

Lemma walk_snoc order comp b :
  walk R (order ++ [comp]) b = visit R (walk R order b) comp.
Proof. unfold walk. apply foldl_snoc. Qed.

(** The broker is carried through the loop untouched. *)
Lemma visit_broker fr comp : broker (visit R fr comp) = broker fr.
Proof.
  unfold visit. destruct (DELEGATES R !! comp); [|done].
  destruct (negb _); [|done].
  by destruct (get_missing_dependencies _ _).
Qed.

Lemma walk_broker order b : broker (walk R order b) = b.
Proof.
  induction order as [|comp order IH] using rev_ind; [done|].
  by rewrite walk_snoc, visit_broker.
Qed.

(** The known set after a walk: the values of the broker and the
    components admitted at their turn. *)
Lemma walk_state order b c :
  c ∈ state (walk R order b)
  ↔ c ∈ dom (instances b)
    ∨ ∃ pre post, order = pre ++ c :: post
                  ∧ admitted R (state (walk R pre b)) c.
Proof.
  induction order as [|x order IH] using rev_ind.
  - simpl. split; [by left|]. intros [?|(pre & post & Heq & _)]; [done|].
    by destruct pre.
  - rewrite walk_snoc.
    destruct (admitted_dec (state (walk R order b)) x) as [Hadm|Hnot].
    + rewrite (visit_admitted _ _ Hadm). simpl.
      rewrite elem_of_union, elem_of_singleton, IH. split.
      * intros [->|[?|(pre & post & -> & Hc)]]; [|by left|].
        -- right. exists order, []. done.
        -- right. exists pre, (post ++ [x]). by rewrite <- app_assoc.
      * intros [?|(pre & post & Heq & Hc)]; [by right; left|].
        destruct post as [|y post _] using rev_ind.
        -- apply app_inj_tail in Heq as [-> ->]. by left.
        -- rewrite app_comm_cons, app_assoc in Heq.
           apply app_inj_tail in Heq as [-> ->].
           right. right. by exists pre, post.
    + rewrite (visit_not_admitted _ _ Hnot), IH. split.
      * intros [?|(pre & post & -> & Hc)]; [by left|].
        right. exists pre, (post ++ [x]). by rewrite <- app_assoc.
      * intros [?|(pre & post & Heq & Hc)]; [by left|].
        destruct post as [|y post _] using rev_ind.
        -- apply app_inj_tail in Heq as [-> ->]. done.
        -- rewrite app_comm_cons, app_assoc in Heq.
           apply app_inj_tail in Heq as [-> ->].
           right. by exists pre, post.
Qed.

(** Every component of the table was admitted at its turn. *)
Lemma walk_models order b key c :
  models (walk R order b) !! key = Some c →
  ∃ pre post, order = pre ++ c :: post
              ∧ admitted R (state (walk R pre b)) c.
Proof.
  revert key c. induction order as [|x order IH] using rev_ind; intros key c.
  - simpl. by rewrite lookup_empty.
  - rewrite walk_snoc.
    assert (∀ key', models (walk R order b) !! key' = Some c →
              ∃ pre post, order ++ [x] = pre ++ c :: post
                          ∧ admitted R (state (walk R pre b)) c) as Hold.
    { intros key' Hc. destruct (IH _ _ Hc) as (pre & post & -> & Hadm).
      exists pre, (post ++ [x]). by rewrite <- app_assoc. }
    destruct (admitted_dec (state (walk R order b)) x) as [Hadm|Hnot].
    + rewrite (visit_admitted _ _ Hadm). simpl. intros Hc.
      apply store_lookup_inv in Hc as [->|(key' & Hc)]; [|by eauto].
      by exists order, [].
    + rewrite (visit_not_admitted _ _ Hnot). apply Hold.
Qed.

(** The two keys a component can be stored under. *)
Lemma store_keys comp (m : gmap string Comp) :
  (∀ key c, m !! key = Some c →
     key = friendly_name R c
     ∨ key = replace "."%char "_"%char (get_name R c)) →
  ∀ key c, store R comp m !! key = Some c →
    key = friendly_name R c
    ∨ key = replace "."%char "_"%char (get_name R c).
Proof.
  intros Hm key c. unfold store.
  destruct (m !! friendly_name R comp) as [prev|] eqn:Hprev.
  - rewrite lookup_insert. case_decide as Hk; [intros [= <-]; by right|].
    rewrite lookup_delete. case_decide; [done|].
    rewrite lookup_insert. case_decide as Hk'; [intros [= <-]; by right|].
    apply Hm.
  - rewrite lookup_insert. case_decide as Hk; [intros [= <-]; by left|].
    apply Hm.
Qed.

Lemma walk_keys order b key c :
  models (walk R order b) !! key = Some c →
  key = friendly_name R c
  ∨ key = replace "."%char "_"%char (get_name R c).
Proof.
  revert key c. induction order as [|x order IH] using rev_ind; intros key c.
  - simpl. by rewrite lookup_empty.
  - rewrite walk_snoc.
    destruct (admitted_dec (state (walk R order b)) x) as [Hadm|Hnot].
    + rewrite (visit_admitted _ _ Hadm). simpl. by apply store_keys.
    + rewrite (visit_not_admitted _ _ Hnot). apply IH.
Qed.

Lemma names_safe_spec order c c' :
  names_safe R order = true →
  c ∈ order → c' ∈ order →
  storable R c = true → storable R c' = true →
  replace "."%char "_"%char (get_name R c) ≠ friendly_name R c'
  ∧ (replace "."%char "_"%char (get_name R c)
     = replace "."%char "_"%char (get_name R c') → c = c').
Proof.
  unfold names_safe. intros Hsafe Hc Hc' Hs Hs'.
  rewrite forallb_forall in Hsafe.
  specialize (Hsafe c (proj1 (list_elem_of_In _ _) Hc)).
  rewrite forallb_forall in Hsafe.
  specialize (Hsafe c' (proj1 (list_elem_of_In _ _) Hc')).
  rewrite Hs, Hs' in Hsafe. simpl in Hsafe.
  apply andb_true_iff in Hsafe as [Hfr Hqn].
  apply negb_true_iff, String.eqb_neq in Hfr. split; [done|].
  intros Heq. apply orb_true_iff in Hqn as [Hqn|Hqn].
  - apply negb_true_iff, String.eqb_neq in Hqn. done.
  - by apply Pos.eqb_eq in Hqn.
Qed.

Lemma admitted_storable (known : gset Comp) c :
  admitted R known c → storable R c = true.
Proof.
  intros (d & Hd & Hds & _). unfold storable. rewrite Hds, Hd.
  rewrite andb_true_r. apply bool_decide_eq_true. by exists d.
Qed.

(** Storing loses no component when the keys cannot clash. *)
Lemma store_keeps comp (m : gmap string Comp) key c :
  (∀ k v, m !! k = Some v →
     k = friendly_name R v ∨ k = replace "."%char "_"%char (get_name R v)) →
  (∀ v v', (v = comp ∨ ∃ k, m !! k = Some v) →
           (v' = comp ∨ ∃ k, m !! k = Some v') →
     replace "."%char "_"%char (get_name R v) ≠ friendly_name R v'
     ∧ (replace "."%char "_"%char (get_name R v)
        = replace "."%char "_"%char (get_name R v') → v = v')) →
  m !! key = Some c →
  ∃ key', store R comp m !! key' = Some c.
Proof.
  intros Hkeys Hsafe Hc.
  destruct (decide (c = comp)) as [->|Hcomp]; [apply store_lookup_self|].
  assert (∀ v, v ≠ c → (v = comp ∨ ∃ k, m !! k = Some v) →
            key ≠ replace "."%char "_"%char (get_name R v)) as Hfresh.
  { intros v Hv Hin Hkey.
    destruct (Hkeys _ _ Hc) as [Hk|Hk]; rewrite Hk in Hkey.
    - by destruct (Hsafe v c Hin (or_intror (ex_intro _ _ Hc))) as [? _].
    - destruct (Hsafe c v (or_intror (ex_intro _ _ Hc)) Hin) as [_ Hinj].
      destruct Hv. symmetry. by apply Hinj. }
  unfold store.
  destruct (m !! friendly_name R comp) as [prev|] eqn:Hprev.
  - destruct (decide (c = prev)) as [->|Hne].
    + exists (replace "."%char "_"%char (get_name R prev)).
      destruct (Hsafe prev comp (or_intror (ex_intro _ _ Hprev))
                  (or_introl eq_refl)) as [Hfr Hinj].
      rewrite lookup_insert_ne by (intros Heq; by destruct Hcomp; apply Hinj).
      rewrite lookup_delete_ne by done.
      apply lookup_insert_eq.
    + exists key.
      rewrite lookup_insert_ne
        by (intros Heq; by apply (Hfresh comp (not_eq_sym Hcomp)
                                    (or_introl eq_refl))).
      rewrite lookup_delete_ne by (intros Heq; congruence).
      rewrite lookup_insert_ne
        by (intros Heq;
            by apply (Hfresh prev (not_eq_sym Hne)
                        (or_intror (ex_intro _ _ Hprev)))).
      done.
  - exists key. rewrite lookup_insert_ne by (intros Heq; congruence). done.
Qed.

(** When the keys cannot clash, every component admitted at its turn
    is in the table. *)
Lemma walk_models_complete order b c :
  (∀ v v', v ∈ order → v' ∈ order →
     storable R v = true → storable R v' = true →
     replace "."%char "_"%char (get_name R v) ≠ friendly_name R v'
     ∧ (replace "."%char "_"%char (get_name R v)
        = replace "."%char "_"%char (get_name R v') → v = v')) →
  (∃ pre post, order = pre ++ c :: post
               ∧ admitted R (state (walk R pre b)) c) →
  ∃ key, models (walk R order b) !! key = Some c.
Proof.
  revert c. induction order as [|x order IH] using rev_ind;
    intros c Hsafe (pre & post & Hord & Hadm).
  - by destruct pre.
  - assert (∀ v key, models (walk R order b) !! key = Some v →
              v ∈ order ∧ storable R v = true) as Hval.
    { intros v key Hv.
      apply walk_models in Hv as (pre' & post' & -> & Hadm').
      split; [|by eapply admitted_storable].
      apply elem_of_app. right. by left. }
    rewrite walk_snoc.
    assert (c = x ∧ pre = order
            ∨ ∃ key, models (walk R order b) !! key = Some c) as Hcase.
    { destruct post as [|y post _] using rev_ind.
      - apply app_inj_tail in Hord as [-> ->]. by left.
      - rewrite app_comm_cons, app_assoc in Hord.
        apply app_inj_tail in Hord as [-> ->]. right.
        apply IH; [|by exists pre, post].
        intros v v' Hv Hv'. apply Hsafe; apply elem_of_app; by left. }
    destruct (admitted_dec (state (walk R order b)) x) as [Hx|Hnot].
    + rewrite (visit_admitted _ _ Hx). simpl.
      destruct Hcase as [[-> _]|(key & Hkey)]; [apply store_lookup_self|].
      apply (store_keeps x _ key); [apply walk_keys| |done].
      intros v v' Hv Hv'. apply Hsafe.
      * destruct Hv as [->|(k & Hk)];
          [apply elem_of_app; right; by left|].
        apply elem_of_app. left. by apply (Hval _ _ Hk).
      * destruct Hv' as [->|(k & Hk)];
          [apply elem_of_app; right; by left|].
        apply elem_of_app. left. by apply (Hval _ _ Hk).
      * destruct Hv as [->|(k & Hk)];
          [by eapply admitted_storable|by apply (Hval _ _ Hk)].
      * destruct Hv' as [->|(k & Hk)];
          [by eapply admitted_storable|by apply (Hval _ _ Hk)].
    + rewrite (visit_not_admitted _ _ Hnot).
      destruct Hcase as [[-> ->]|?]; [done|done].
Qed.

(** C1, as the code has it: walking the run order of the single-host
    group with a known set seeded from the broker's values, a component
    is added to the known set and stored in the table when it is
    registered, is not a data-source, and is eligible (requires-all
    contained in the known set, every alternative-group intersecting
    it); otherwise the step changes nothing.  Every component of the
    returned table, and every member of the final known set that holds
    no value, was added in this way at its turn.  And none is omitted:
    when the keys of the collision branch cannot clash, the components
    of the returned table are exactly those added in this way. *)
Theorem reachable_walk b pre comp post :
  run_order R (COMPONENTS R single) = pre ++ comp :: post →
  let before := walk R pre b in
  let after := walk R (pre ++ [comp]) b in
  (admitted R (state before) comp →
     state after = {[ comp ]} ∪ state before
     ∧ ∃ key, models after !! key = Some comp)
  ∧ (¬ admitted R (state before) comp → after = before)
  ∧ (∀ key c, (get_available_models R b).1 !! key = Some c →
       ∃ pre' post',
         run_order R (COMPONENTS R single) = pre' ++ c :: post'
         ∧ admitted R (state (walk R pre' b)) c)
  ∧ (∀ c, c ∈ state (walk R (run_order R (COMPONENTS R single)) b)
          ↔ c ∈ dom (instances b)
            ∨ ∃ pre' post',
                run_order R (COMPONENTS R single) = pre' ++ c :: post'
                ∧ admitted R (state (walk R pre' b)) c)
  ∧ (names_safe R (run_order R (COMPONENTS R single)) = true →
     ∀ c, (∃ key, (get_available_models R b).1 !! key = Some c)
          ↔ ∃ pre' post',
              run_order R (COMPONENTS R single) = pre' ++ c :: post'
              ∧ admitted R (state (walk R pre' b)) c).
Proof.
  intros Horder before after. subst before after.
  rewrite walk_snoc. split; [|split; [|split; [|split]]].
  - intros Hadm. rewrite (visit_admitted _ _ Hadm). simpl.
    split; [done|apply store_lookup_self].
  - intros Hnot. by apply visit_not_admitted.
  - intros key c Hc. by apply walk_models in Hc.
  - intros c. apply walk_state.
  - intros Hsafe c. split.
    + intros (key & Hc). by apply walk_models in Hc.
    + apply walk_models_complete. intros v v'. by apply names_safe_spec.
Qed.

(** C2, as the code has it: the simulation starts from exactly the
    components that hold a value; a component without a value (faulted,
    missing or absent) is not in the initial known set, joins the known
    set only by being admitted by the walk at its turn, and never joins
    it when it is a data-source or is not registered. *)
Theorem initial_known_set b c :
  (c ∈ state (enter b) ↔ is_Some (instances b !! c))
  ∧ (instances b !! c = None → c ∉ state (enter b))
  ∧ (∀ order, instances b !! c = None →
       c ∈ state (walk R order b) →
       ∃ pre post, order = pre ++ c :: post
                   ∧ admitted R (state (walk R pre b)) c)
  ∧ (∀ order, instances b !! c = None →
       plugins.is_datasource R c = true ∨ DELEGATES R !! c = None →
       c ∉ state (walk R order b)).
Proof.
  repeat split.
  - simpl. by intros ?%elem_of_dom.
  - simpl. by intros ?%elem_of_dom.
  - simpl. by intros ?%not_elem_of_dom.
  - intros order Hnone Hin.
    apply walk_state in Hin as [Hin|?]; [|done].
    by apply not_elem_of_dom in Hnone.
  - intros order Hnone Hkind Hin.
    apply walk_state in Hin as [Hin|(pre & post & _ & d & Hd & Hds & _)].
    + by apply not_elem_of_dom in Hnone.
    + destruct Hkind; congruence.
Qed.

(** C3: the reachability pass leaves the broker as it found it, after
    the whole loop and after every prefix of it. *)
Theorem reachability_frame b :
  (get_available_models R b).2 = b
  ∧ ∀ order, broker (walk R order b) = b.
Proof. split; [apply walk_broker|intros; apply walk_broker]. Qed.
End reachability_facts.

Section reachability_examples.
Import dr shell spec demo.

(** C1, as stated, fails: the data-source [uname] holds no value and
    requires nothing, so it is eligible whatever is known, yet its turn
    changes nothing: it is neither in the known set nor in the table. *)
Lemma reachable_skips_eligible_datasource :
  run_order registry (COMPONENTS registry single)
  = [hostname] ++ uname :: [Hostname; Uname; report]
  ∧ DELEGATES registry !! uname = Some (mkDelegate [] [])
  ∧ eligible (mkDelegate [] []) (state (walk registry [hostname] seeded))
  ∧ walk registry ([hostname] ++ [uname]) seeded
    = walk registry [hostname] seeded
  ∧ state (walk registry (run_order registry (COMPONENTS registry single)) seeded)
    = {[ hostname; Hostname; report ]}
  ∧ (get_available_models registry seeded).1
    = {[ "Hostname" := Hostname; "kernel_check_report" := report ]}.
Proof.
  repeat split; try (vm_compute; reflexivity).
  - intros r Hr. by apply elem_of_nil in Hr.
  - intros g Hg. by apply elem_of_nil in Hg.
Qed.

(** At its turn the parser [Hostname] is admitted: it joins the known
    set and the table, and, the keys of the registry being safe, it is
    in the table that is returned. *)
Lemma reachable_walk_witness :
  (state (walk registry ([hostname; uname] ++ [Hostname]) seeded)
   = {[ Hostname ]} ∪ state (walk registry [hostname; uname] seeded)
   ∧ ∃ key, models (walk registry ([hostname; uname] ++ [Hostname]) seeded)
              !! key
            = Some Hostname)
  ∧ ∃ key, (get_available_models registry seeded).1 !! key = Some Hostname.
Proof.
  assert (admitted registry (state (walk registry [hostname; uname] seeded))
            Hostname) as Hadm.
  { exists (mkDelegate [hostname] []). split; [vm_compute; reflexivity|].
    split; [vm_compute; reflexivity|].
    apply get_missing_dependencies_None. vm_compute. reflexivity. }
  assert (run_order registry (COMPONENTS registry single)
          = [hostname; uname] ++ Hostname :: [Uname; report]) as Horder.
  { vm_compute. reflexivity. }
  assert (names_safe registry (run_order registry (COMPONENTS registry single))
          = true) as Hsafe.
  { vm_compute. reflexivity. }
  refine ((λ H, conj (proj1 H Hadm)
                  (proj2 (proj2 (proj2 (proj2 (proj2 H))) Hsafe Hostname) _))
            (reachable_walk registry seeded [hostname; uname] Hostname
               [Uname; report] Horder)).
  exists [hostname; uname], [Uname; report]. split; [exact Horder|exact Hadm].
Defined.

(** C2, as stated, fails: the parser [Hostname] is resolved to a fault
    and holds no value, so it is not in the initial known set; the walk
    admits it at its turn all the same, and the rule [report], which
    requires it, is found available on that evidence. *)
Lemma faulted_parser_counts_as_known :
  exceptions faulted !! Hostname = Some ["ParseException"]
  ∧ instances faulted !! Hostname = None
  ∧ state (enter faulted) = {[ hostname ]}
  ∧ state (walk registry [hostname; uname; Hostname] faulted)
    = {[ hostname; Hostname ]}
  ∧ DELEGATES registry !! report
    = Some (mkDelegate [Hostname] [[Uname; Hostname]])
  ∧ (get_available_models registry faulted).1 !! "kernel_check_report"
    = Some report.
Proof. repeat split; vm_compute; reflexivity. Qed.

(** The faulted parser is not in the initial known set, and the
    data-source [uname], which holds no value, is never known. *)
Lemma initial_known_set_witness :
  (Hostname ∉ state (enter faulted))
  ∧ (uname ∉ state (walk registry
                      (run_order registry (COMPONENTS registry single))
                      faulted)).
Proof.
  split.
  - refine (proj1 (proj2 (initial_known_set registry faulted Hostname)) _).
    vm_compute. reflexivity.
  - refine (proj2 (proj2 (proj2 (initial_known_set registry faulted uname)))
              (run_order registry (COMPONENTS registry single)) _ _).
    + vm_compute. reflexivity.
    + left. vm_compute. reflexivity.
Defined.

(** C9 on two rules named [report], one in the top-level module [foo]
    and one in [pkg.foo]: both are admitted, the earlier is stored as
    [foo_report], and at the collision it is re-keyed under that same
    key and deleted with it; only the later one is in the table. *)
Theorem colliding_rules_lose_the_earlier :
  state (walk rules (run_order rules (COMPONENTS rules single)) empty_broker)
  = {[ foo_report; pkg_foo_report ]}
  ∧ models (walk rules [foo_report] empty_broker)
    = {[ "foo_report" := foo_report ]}
  ∧ (get_available_models rules empty_broker).1
    = {[ "pkg_foo_report" := pkg_foo_report ]}.
Proof. repeat split; vm_compute; reflexivity. Qed.

(** In the other run order the same branch keeps both rules. *)
Example colliding_rules_kept_in_the_other_order :
  map_to_list (get_available_models rules_reversed empty_broker).1
  = [("foo_report", foo_report); ("pkg_foo_report", pkg_foo_report)].
Proof. vm_compute. reflexivity. Qed.
End reachability_examples.

(** ** The broker *)

Section broker_facts.
Import dr.
Context {Value Fault : Type}.

(** Whether a component is resolved is read off its entry. *)
Lemma entry_resolved (b b' : Broker Value Fault) (c : Comp) :
  entry b' c = entry b c → resolved b' c = resolved b c.
Proof.
  unfold entry, resolved. intros [= Hi He Hm].
  rewrite !(bool_decide_ext _ _ (elem_of_dom _ _)).
  by rewrite Hi, He, Hm.
Qed.
End broker_facts.

(** ** The selective evaluator *)

Section evaluator_facts.
Import dr shell.
Context {Value Fault : Type}.
Variable R : Registry.
Variable dr_run : list Comp → Broker Value Fault → Broker Value Fault * list Comp.
Variable re_search : string → string → bool.

Implicit Types (b : Broker Value Fault) (self : Models Value Fault).
Implicit Types (c comp : Comp) (ts : list Comp).

Lemma scheduler_calls_snoc (es : list Effect) (e : Effect) :
  scheduler_calls (es ++ [e])
  = scheduler_calls es
    ++ match e with Dr_run ts _ => [ts] | _ => [] end.
Proof. unfold scheduler_calls. rewrite omap_app. by destruct e. Qed.

Lemma bodies_invoked_snoc (es : list Effect) (e : Effect) :
  bodies_invoked (es ++ [e])
  = bodies_invoked es
    ++ match e with Dr_run _ inv => inv | _ => [] end.
Proof.
  unfold bodies_invoked. rewrite omap_app, concat_app.
  destruct e; simpl; by rewrite ?app_nil_r.
Qed.

(** A scheduler call under coverage tracking: only the broker and the
    effects change, by one call of the scheduler. *)
Lemma tracked_run ts self :
  let self' := _coverage_tracking (call_run dr_run ts) self in
  table self' = table self
  ∧ _broker self' = (dr_run ts (_broker self)).1
  ∧ scheduler_calls (effects self') = scheduler_calls (effects self) ++ [ts]
  ∧ bodies_invoked (effects self')
    = bodies_invoked (effects self) ++ (dr_run ts (_broker self)).2.
Proof.
  unfold _coverage_tracking, call_run, emit.
  destruct (_cov self); simpl;
    destruct (dr_run ts (_broker self)) as [b' inv]; simpl;
    rewrite ?scheduler_calls_snoc, ?bodies_invoked_snoc, ?app_nil_r; done.
Qed.

Lemma contains_false_get b c : contains b c = false → get b c = None.
Proof.
  unfold contains, get. intros Hc%bool_decide_eq_false.
  by apply not_elem_of_dom.
Qed.

Lemma resolved_split b c :
  resolved b c
  = contains b c
    || (bool_decide (c ∈ dom (exceptions b))
        || bool_decide (c ∈ dom (missing_requirements b))).
Proof. unfold resolved, contains. by rewrite orb_assoc. Qed.

(** The component a name stands for is already resolved: the answer
    comes from the broker and the scheduler is not called. *)
Lemma evaluate_resolved name self comp :
  lookup_component R name self = Some comp →
  resolved (_broker self) comp = true →
  let r := evaluate R dr_run name self in
  r.1 = get (_broker self) comp
  ∧ _broker r.2 = _broker self
  ∧ scheduler_calls (effects r.2) = scheduler_calls (effects self)
  ∧ bodies_invoked (effects r.2) = bodies_invoked (effects self)
  ∧ (contains (_broker self) comp = false →
     r.1 = None ∧ effects r.2 = effects self ++ [Dump_diagnostics comp]).
Proof.
  intros Hname. unfold evaluate. rewrite Hname.
  set (self1 := if negb (plugins.is_rule R comp) then _ else self).
  assert (_broker self1 = _broker self ∧ effects self1 = effects self)
    as [Hb He].
  { unfold self1. by destruct (negb _). }
  rewrite resolved_split, Hb.
  destruct (contains (_broker self) comp) eqn:Hc; cbn [orb fst snd].
  { intros _. rewrite Hb, He. repeat split; intros; try done; discriminate. }
  intros ->. unfold _dump_diagnostics, emit. cbn [effects _broker fst snd].
  rewrite Hb, He, scheduler_calls_snoc, bodies_invoked_snoc, !app_nil_r.
  repeat split; try done. symmetry. by apply contains_false_get.
Qed.

(** The component a name stands for is not resolved: it is handed,
    alone, to one call of the scheduler, and what the broker then holds
    for it is the answer. *)
Lemma evaluate_unresolved name self comp :
  lookup_component R name self = Some comp →
  resolved (_broker self) comp = false →
  let r := evaluate R dr_run name self in
  _broker r.2 = (dr_run [comp] (_broker self)).1
  ∧ scheduler_calls (effects r.2) = scheduler_calls (effects self) ++ [[comp]]
  ∧ bodies_invoked (effects r.2)
    = bodies_invoked (effects self) ++ (dr_run [comp] (_broker self)).2
  ∧ r.1 = get (_broker r.2) comp.
Proof.
  intros Hname. unfold evaluate. rewrite Hname.
  set (self1 := if negb (plugins.is_rule R comp) then _ else self).
  assert (_broker self1 = _broker self ∧ effects self1 = effects self)
    as [Hb He].
  { unfold self1. by destruct (negb _). }
  rewrite resolved_split, Hb.
  intros [-> ->]%orb_false_iff. cbn [negb].
  destruct (tracked_run [comp] self1) as (_ & Hb' & Hs' & Hi').
  rewrite Hb in Hb', Hi'. rewrite He in Hs', Hi'.
  set (self2 := _coverage_tracking (call_run dr_run [comp]) self1) in *.
  assert (∀ self3 : Models Value Fault,
            _broker self3 = _broker self2 →
            scheduler_calls (effects self3) = scheduler_calls (effects self2) →
            bodies_invoked (effects self3) = bodies_invoked (effects self2) →
            _broker self3 = (dr_run [comp] (_broker self)).1
            ∧ scheduler_calls (effects self3)
              = scheduler_calls (effects self) ++ [[comp]]
            ∧ bodies_invoked (effects self3)
              = bodies_invoked (effects self)
                ++ (dr_run [comp] (_broker self)).2
            ∧ get (_broker self2) comp = get (_broker self3) comp) as Hfin.
  { intros self3 -> -> ->. done. }
  cbn [fst snd].
  destruct (negb (contains (_broker self2) comp)); [|by apply Hfin].
  destruct (bool_decide (comp ∈ dom (exceptions (_broker self2))) || _);
    apply Hfin; unfold _dump_diagnostics, emit;
    cbn [effects _broker]; try done;
    by rewrite ?scheduler_calls_snoc, ?bodies_invoked_snoc, app_nil_r.
Qed.

(** C4: for a name the evaluator knows, an already resolved component
    is answered from the broker (its value, or nothing after its
    diagnostics are shown) without any call of the scheduler; an
    unresolved one is handed, alone, to one call of the scheduler, and
    what the broker then holds for it is returned. *)
Theorem evaluate_known name self comp :
  lookup_component R name self = Some comp →
  let r := evaluate R dr_run name self in
  (resolved (_broker self) comp = true →
     r.1 = get (_broker self) comp
     ∧ _broker r.2 = _broker self
     ∧ scheduler_calls (effects r.2) = scheduler_calls (effects self))
  ∧ (resolved (_broker self) comp = true →
     contains (_broker self) comp = false →
     r.1 = None ∧ effects r.2 = effects self ++ [Dump_diagnostics comp])
  ∧ (resolved (_broker self) comp = false →
     _broker r.2 = (dr_run [comp] (_broker self)).1
     ∧ scheduler_calls (effects r.2)
       = scheduler_calls (effects self) ++ [[comp]]
     ∧ r.1 = get (_broker r.2) comp).
Proof.
  intros Hname r. subst r. split; [|split].
  - intros Hres.
    destruct (evaluate_resolved _ _ _ Hname Hres) as (? & ? & ? & _). done.
  - intros Hres Hc.
    destruct (evaluate_resolved _ _ _ Hname Hres) as (_ & _ & _ & _ & Hd).
    by apply Hd.
  - intros Hres.
    destruct (evaluate_unresolved _ _ _ Hname Hres) as (? & ? & _ & ?). done.
Qed.

(** C10, as the code has it: a name that is neither a key of the
    table nor resolvable by [dr.get_component] to any object,
    registered or not, is answered with nothing; the evaluator, its
    broker and its effects are as before. *)
Theorem evaluate_unknown name self :
  table self !! name = None →
  get_component R name = None →
  evaluate R dr_run name self = (None, self).
Proof.
  intros Htable Hreg. unfold evaluate, lookup_component.
  by rewrite Htable, Hreg.
Qed.

Lemma tasks_of_spec (mt ig : string → bool) self c :
  c ∈ tasks_of R mt ig self
  ↔ (∃ key, table self !! key = Some c)
    ∧ mt (get_name R c) = true
    ∧ ig (get_name R c) = false
    ∧ resolved (_broker self) c = false.
Proof.
  unfold tasks_of.
  rewrite list_elem_of_In, filter_In, <- list_elem_of_In, list_elem_of_fmap.
  rewrite !andb_true_iff, !negb_true_iff. split.
  - intros ([[key c'] [-> Hin]] & [Hm Hi] & Hr).
    apply elem_of_map_to_list in Hin. eauto.
  - intros ((key & Hkey) & Hm & Hi & Hr). split; [|done].
    exists (key, c). split; [done|]. by apply elem_of_map_to_list.
Qed.

Lemma evaluate_all_cases (m i : Arg) self :
  let mt := (_desugar_match_ignore R re_search m i self).1 in
  let ig := (_desugar_match_ignore R re_search m i self).2 in
  let tasks := tasks_of R mt ig self in
  let self' := evaluate_all R dr_run re_search m i self in
  (tasks = [] → self' = self)
  ∧ (tasks ≠ [] →
     _broker self' = (dr_run tasks (_broker self)).1
     ∧ scheduler_calls (effects self')
       = scheduler_calls (effects self) ++ [tasks]
     ∧ bodies_invoked (effects self')
       = bodies_invoked (effects self) ++ (dr_run tasks (_broker self)).2).
Proof.
  intros mt ig tasks self'. subst self'. unfold evaluate_all.
  destruct (_desugar_match_ignore R re_search m i self) as [mt' ig'] eqn:Hd.
  simpl in mt, ig. subst mt ig. fold tasks.
  destruct tasks as [|t tasks']; [done|].
  split; [done|]. intros _.
  destruct (tracked_run (t :: tasks') self) as (_ & Hb & Hs & Hi).
  unfold find, emit. cbn [effects _broker].
  by rewrite scheduler_calls_snoc, bodies_invoked_snoc, !app_nil_r.
Qed.

(** C5, as the code has it: bulk evaluation selects the components of
    the model table whose qualified name passes the inclusion test and
    fails the exclusion test, leaves out those already resolved, and
    hands the rest to one call of the scheduler; when nothing is left,
    the scheduler is not called and nothing changes. *)
Theorem evaluate_all_batches (m i : Arg) self :
  let mt := (_desugar_match_ignore R re_search m i self).1 in
  let ig := (_desugar_match_ignore R re_search m i self).2 in
  let tasks := tasks_of R mt ig self in
  let self' := evaluate_all R dr_run re_search m i self in
  (∀ c, c ∈ tasks
        ↔ (∃ key, table self !! key = Some c)
          ∧ mt (get_name R c) = true
          ∧ ig (get_name R c) = false
          ∧ resolved (_broker self) c = false)
  ∧ (tasks = [] → self' = self)
  ∧ (tasks ≠ [] →
     _broker self' = (dr_run tasks (_broker self)).1
     ∧ scheduler_calls (effects self')
       = scheduler_calls (effects self) ++ [tasks]).
Proof.
  intros mt ig tasks self'. split; [intros c; apply tasks_of_spec|].
  destruct (evaluate_all_cases m i self) as [Hnil Hcons].
  split; [done|]. intros Hne. by destruct (Hcons Hne) as (? & ? & _).
Qed.

(** What one request does to the broker: nothing, or one call of the
    scheduler. *)
Lemma serve_cases self (q : Request) :
  let self' := serve R dr_run re_search self q in
  (_broker self' = _broker self
   ∧ bodies_invoked (effects self') = bodies_invoked (effects self))
  ∨ (∃ ts, _broker self' = (dr_run ts (_broker self)).1
           ∧ bodies_invoked (effects self')
             = bodies_invoked (effects self) ++ (dr_run ts (_broker self)).2).
Proof.
  destruct q as [name|m i]; simpl.
  - destruct (lookup_component R name self) as [comp|] eqn:Hname.
    + destruct (resolved (_broker self) comp) eqn:Hres.
      * left.
        destruct (evaluate_resolved _ _ _ Hname Hres) as (_ & ? & _ & ? & _).
        done.
      * right. exists [comp].
        destruct (evaluate_unresolved _ _ _ Hname Hres) as (? & _ & ? & _).
        done.
    + left. unfold evaluate. by rewrite Hname.
  - destruct (evaluate_all_cases m i self) as [Hnil Hcons].
    destruct (tasks_of R _ _ self) as [|t ts] eqn:Htasks.
    + left. by rewrite Hnil.
    + right. exists (t :: ts). by destruct Hcons as (? & _ & ?).
Qed.

(** A scheduler that keeps what is resolved and does not invoke it
    again makes every session keep it and not invoke it again. *)
Lemma session_keeps (qs : list Request) self c :
  (∀ ts b, resolved b c = true →
           entry (dr_run ts b).1 c = entry b c ∧ c ∉ (dr_run ts b).2) →
  resolved (_broker self) c = true →
  let self' := session R dr_run re_search qs self in
  entry (_broker self') c = entry (_broker self) c
  ∧ ∃ new, bodies_invoked (effects self')
           = bodies_invoked (effects self) ++ new
           ∧ c ∉ new.
Proof.
  intros Hrun. revert self.
  induction qs as [|q qs IH]; intros self Hres; simpl.
  - split; [done|]. exists []. rewrite app_nil_r. split; [done|].
    apply not_elem_of_nil.
  - assert (entry (_broker (serve R dr_run re_search self q)) c
            = entry (_broker self) c
            ∧ ∃ new, bodies_invoked (effects (serve R dr_run re_search self q))
                     = bodies_invoked (effects self) ++ new
                     ∧ c ∉ new) as (Hentry & new1 & Hnew1 & Hc1).
    { destruct (serve_cases self q) as [[-> ->]|(ts & -> & ->)].
      - split; [done|]. exists []. rewrite app_nil_r. split; [done|].
        apply not_elem_of_nil.
      - destruct (Hrun ts _ Hres) as [? ?]. split; [done|]. eauto. }
    destruct (IH (serve R dr_run re_search self q)) as (Hentry' & new2 & Hnew2 & Hc2).
    { rewrite <- Hres. by apply entry_resolved. }
    split; [by rewrite Hentry', Hentry|].
    exists (new1 ++ new2). rewrite Hnew2, Hnew1, app_assoc.
    split; [done|]. rewrite not_elem_of_app. done.
Qed.
End evaluator_facts.

(** ** The scheduler of the specification, and sessions over it *)

Section scheduler_facts.
Import dr shell.
Context {Value Fault : Type}.
Variable R : Registry.
Variable body : Comp → gmap Comp Value → Value + Fault.

Implicit Types (b : Broker Value Fault) (c x : Comp).

Lemma resolved_ne b c x :
  resolved b c = true → resolved b x = false → x ≠ c.
Proof. intros Hc Hx ->. congruence. Qed.

(** One step of the scheduler keeps the entry of a resolved component
    and does not invoke its body. *)
Lemma run_step_keeps (acc : Broker Value Fault * list Comp) c x :
  resolved acc.1 c = true →
  c ∉ acc.2 →
  entry (run_step R body acc x).1 c = entry acc.1 c
  ∧ c ∉ (run_step R body acc x).2.
Proof.
  destruct acc as [b log]. simpl. intros Hc Hlog. unfold run_step.
  destruct (resolved b x) eqn:Hx; [done|].
  pose proof (resolved_ne _ _ _ Hc Hx) as Hne.
  destruct (DELEGATES R !! x) as [d|]; [|done].
  destruct (get_missing_dependencies d (dom (instances b))) as [[req alo]|].
  - unfold put_missing. rewrite Hx. simpl. split; [|done].
    unfold entry. simpl. by rewrite lookup_insert_ne.
  - assert (c ∉ log ++ [x]) as Hlog'.
    { rewrite not_elem_of_app, not_elem_of_cons. split; [done|].
      split; [done|apply not_elem_of_nil]. }
    destruct (body x (instances b)) as [v|f].
    + unfold put. rewrite Hx. simpl. split; [|done].
      unfold entry. simpl. by rewrite lookup_insert_ne.
    + unfold put_fault. rewrite Hx. simpl. split; [|done].
      unfold entry. simpl. by rewrite lookup_insert_ne.
Qed.

Lemma run_steps_keep (order : list Comp)
    (acc : Broker Value Fault * list Comp) c :
  resolved acc.1 c = true →
  c ∉ acc.2 →
  entry (foldl (run_step R body) acc order).1 c = entry acc.1 c
  ∧ c ∉ (foldl (run_step R body) acc order).2.
Proof.
  revert acc. induction order as [|x order IH]; intros acc Hc Hlog; [done|].
  simpl. destruct (run_step_keeps acc c x Hc Hlog) as [Hentry Hlog'].
  destruct (IH (run_step R body acc x)) as [Hentry' Hlog'']; [|done|].
  - rewrite <- Hc. by apply entry_resolved.
  - split; [by rewrite Hentry'|done].
Qed.

(** The scheduler is read-and-extend: what is resolved when it starts
    is kept as it is, and its body is not invoked. *)
Lemma run_keeps (targets : list Comp) b c :
  resolved b c = true →
  entry (run R body targets b).1 c = entry b c
  ∧ c ∉ (run R body targets b).2.
Proof.
  intros Hc. unfold run.
  apply (run_steps_keep _ (b, [])); [done|apply not_elem_of_nil].
Qed.

Variable re_search : string → string → bool.

(** C6: over any session of single and bulk evaluations, a component
    that is resolved keeps its entry in the broker and its body is not
    invoked again; evaluating a name that stands for it once more calls
    no scheduler, invokes no body and leaves the whole broker as it is. *)
Theorem session_read_and_extend (qs : list Request)
    (self : Models Value Fault) c :
  resolved (_broker self) c = true →
  let self' := session R (run R body) re_search qs self in
  entry (_broker self') c = entry (_broker self) c
  ∧ (∃ new, bodies_invoked (effects self')
            = bodies_invoked (effects self) ++ new
            ∧ c ∉ new)
  ∧ (∀ name, lookup_component R name self = Some c →
       let r := evaluate R (run R body) name self in
       _broker r.2 = _broker self
       ∧ scheduler_calls (effects r.2) = scheduler_calls (effects self)
       ∧ bodies_invoked (effects r.2) = bodies_invoked (effects self)).
Proof.
  intros Hres self'. subst self'.
  destruct (session_keeps R (run R body) re_search qs self c) as [Hentry Hnew];
    [intros ts b; apply run_keeps|done|].
  split; [done|]. split; [done|].
  intros name Hname.
  destruct (evaluate_resolved R (run R body) _ _ _ Hname Hres)
    as (_ & ? & ? & ? & _).
  done.
Qed.
End scheduler_facts.

Section evaluator_examples.
Import dr shell demo.

(** [Hostname] is unresolved in the seeded broker: it goes to the
    scheduler alone and its value comes back. *)
Lemma evaluate_known_witness :
  let r := evaluate registry (run registry bodies) "Hostname"
             (start registry seeded) in
  _broker r.2
  = (run registry bodies [Hostname] (_broker (start registry seeded))).1
  ∧ scheduler_calls (effects r.2)
    = scheduler_calls (effects (start registry seeded)) ++ [[Hostname]]
  ∧ r.1 = get (_broker r.2) Hostname.
Proof.
  refine (proj2 (proj2 (evaluate_known registry (run registry bodies)
                          "Hostname" (start registry seeded) Hostname _)) _).
  - vm_compute. reflexivity.
  - vm_compute. reflexivity.
Defined.

Lemma evaluate_unknown_witness :
  evaluate registry (run registry bodies) "NoSuchThing" (start registry seeded)
  = (None, start registry seeded).
Proof.
  refine (evaluate_unknown registry (run registry bodies) "NoSuchThing"
            (start registry seeded) _ _).
  - vm_compute. reflexivity.
  - vm_compute. reflexivity.
Defined.

(** C10, as stated, fails: [os.getcwd] is no key of the table and
    resolves to no registered component, since the object it resolves
    to has no delegate; [evaluate] takes the object for a component all
    the same: it records the request and calls the scheduler on it. *)
Lemma evaluate_runs_unregistered_object :
  table (start with_import seeded) !! "os.getcwd" = None
  ∧ get_component with_import "os.getcwd" = Some os_getcwd
  ∧ DELEGATES with_import !! os_getcwd = None
  ∧ scheduler_calls
      (effects (evaluate with_import (run with_import bodies) "os.getcwd"
                  (start with_import seeded)).2)
    = [[os_getcwd]]
  ∧ elements
      (_requested (evaluate with_import (run with_import bodies) "os.getcwd"
                     (start with_import seeded)).2)
    = [("os.getcwd", os_getcwd)]
  ∧ effects (evaluate with_import (run with_import bodies) "os.getcwd"
               (start with_import seeded)).2
    = [Dr_run [os_getcwd] []; Print_skip os_getcwd].
Proof. repeat split; vm_compute; reflexivity. Qed.

(** C5, as stated, fails: [uname] and [Uname] are registered, their
    qualified names pass the default inclusion test and fail the default
    exclusion test, and neither is resolved; they are not in the model
    table, and the one scheduler call is for [report] and [Hostname]. *)
Lemma evaluate_all_leaves_out_unlisted :
  DELEGATES registry !! Uname = Some (mkDelegate [uname] [])
  ∧ DELEGATES registry !! uname = Some (mkDelegate [] [])
  ∧ resolved seeded Uname = false
  ∧ resolved seeded uname = false
  ∧ (_desugar_match_ignore registry literal_search Arg_none Arg_none
       (start registry seeded)).1 (get_name registry Uname) = true
  ∧ (_desugar_match_ignore registry literal_search Arg_none Arg_none
       (start registry seeded)).2 (get_name registry Uname) = false
  ∧ (_desugar_match_ignore registry literal_search Arg_none Arg_none
       (start registry seeded)).1 (get_name registry uname) = true
  ∧ (_desugar_match_ignore registry literal_search Arg_none Arg_none
       (start registry seeded)).2 (get_name registry uname) = false
  ∧ scheduler_calls
      (effects (evaluate_all registry (run registry bodies) literal_search
                  Arg_none Arg_none (start registry seeded)))
    = [[report; Hostname]].
Proof. repeat split; vm_compute; reflexivity. Qed.

(** Asked for what matches [parsers], bulk evaluation hands [Hostname],
    the one parser of the table, to the scheduler. *)
Lemma evaluate_all_batches_witness :
  tasks_of registry
    (_desugar_match_ignore registry literal_search (Arg_str "parsers")
       Arg_none (start registry seeded)).1
    (_desugar_match_ignore registry literal_search (Arg_str "parsers")
       Arg_none (start registry seeded)).2
    (start registry seeded)
  = [Hostname]
  ∧ scheduler_calls
      (effects (evaluate_all registry (run registry bodies) literal_search
                  (Arg_str "parsers") Arg_none (start registry seeded)))
    = scheduler_calls (effects (start registry seeded)) ++ [[Hostname]].
Proof.
  split; [vm_compute; reflexivity|].
  refine (proj2 (proj2 (proj2 (evaluate_all_batches registry
                                 (run registry bodies) literal_search
                                 (Arg_str "parsers") Arg_none
                                 (start registry seeded))) _)).
  vm_compute. discriminate.
Defined.

(** After [Hostname] has been evaluated, evaluating the rule, then
    everything, then [Hostname] again leaves its entry as it was. *)
Lemma session_read_and_extend_witness :
  entry (_broker (session registry (run registry bodies) literal_search
                    [Evaluate "kernel_check_report";
                     Evaluate_all Arg_none Arg_none;
                     Evaluate "Hostname"]
                    (evaluate registry (run registry bodies) "Hostname"
                       (start registry seeded)).2)) Hostname
  = entry (_broker (evaluate registry (run registry bodies) "Hostname"
                      (start registry seeded)).2) Hostname.
Proof.
  refine (proj1 (session_read_and_extend registry bodies literal_search
                   [Evaluate "kernel_check_report";
                    Evaluate_all Arg_none Arg_none;
                    Evaluate "Hostname"]
                   (evaluate registry (run registry bodies) "Hostname"
                      (start registry seeded)).2 Hostname _)).
  vm_compute. reflexivity.
Defined.
End evaluator_examples.

(** * Further properties *)

(** ** The filter registry over histories of calls *)

Section blacklist_histories.
Import blacklist.
Context {Pattern : Type} `{!EqDecision Pattern, !Countable Pattern}.
Variable re_compile : string → option Pattern.
Variable re_match : Pattern → string → bool.

Implicit Types (ks : list Call) (st : Filters (Pattern:=Pattern)).

Lemma file_filters_after ks (r : Pattern) :
  r ∈ _FILE_FILTERS (after re_compile ks)
  ↔ ∃ f, Add_file f ∈ ks ∧ re_compile f = Some r.
Proof.
  unfold after.
  rewrite (history_members re_compile _FILE_FILTERS
             (λ k x, ∃ f, k = Add_file f ∧ re_compile f = Some x)
             (call_file_filters re_compile)).
  split.
  - intros [Hr|(k & Hk & f & -> & Hf)]; [|by exists f].
    by apply not_elem_of_empty in Hr.
  - intros (f & Hf & Hc). right. exists (Add_file f). eauto.
Qed.

Lemma command_filters_after ks (r : Pattern) :
  r ∈ _COMMAND_FILTERS (after re_compile ks)
  ↔ ∃ f, Add_command f ∈ ks ∧ re_compile f = Some r.
Proof.
  unfold after.
  rewrite (history_members re_compile _COMMAND_FILTERS
             (λ k x, ∃ f, k = Add_command f ∧ re_compile f = Some x)
             (call_command_filters re_compile)).
  split.
  - intros [Hr|(k & Hk & f & -> & Hf)]; [|by exists f].
    by apply not_elem_of_empty in Hr.
  - intros (f & Hf & Hc). right. exists (Add_command f). eauto.
Qed.

Lemma strings_after (proj : Filters → gset string) (mk : string → Call) :
  (∀ st k x, x ∈ proj (call re_compile st k) ↔ x ∈ proj st ∨ k = mk x) →
  proj initial = ∅ →
  ∀ ks p, p ∈ proj (after re_compile ks) ↔ mk p ∈ ks.
Proof.
  intros Hstep Hinit ks p. unfold after.
  rewrite (history_members re_compile proj (λ k x, k = mk x) Hstep).
  rewrite Hinit. split.
  - intros [Hp|(k & Hk & ->)]; [|done]. by apply not_elem_of_empty in Hp.
  - intros Hp. right. by exists (mk p).
Qed.

Lemma filters_eq st st' :
  _FILE_FILTERS st = _FILE_FILTERS st' →
  _COMMAND_FILTERS st = _COMMAND_FILTERS st' →
  _PATTERN_FILTERS st = _PATTERN_FILTERS st' →
  _REGEX_PATTERN_FILTERS st = _REGEX_PATTERN_FILTERS st' →
  _KEYWORD_FILTERS st = _KEYWORD_FILTERS st' →
  st = st'.
Proof. destruct st, st'. simpl. by intros -> -> -> -> ->. Qed.

(** X1: what [allow_file] ([allow_command]) refuses after a history of
    calls it still refuses after any longer history: no call of the
    module ever removes a filter. *)
Theorem refusals_persist ks ks' (c : string) :
  (allow_file re_match c (after re_compile ks) = false →
     allow_file re_match c (after re_compile (ks ++ ks')) = false)
  ∧ (allow_command re_match c (after re_compile ks) = false →
     allow_command re_match c (after re_compile (ks ++ ks')) = false).
Proof.
  split.
  - intros Hno. apply not_true_iff_false. intros Hyes.
    apply not_true_iff_false in Hno. apply Hno.
    apply no_match_iff. intros r Hr.
    apply (proj1 (no_match_iff _ _ _) Hyes).
    apply file_filters_after in Hr as (f & Hf & Hc).
    apply file_filters_after. exists f. split; [|done].
    apply elem_of_app. by left.
  - intros Hno. apply not_true_iff_false. intros Hyes.
    apply not_true_iff_false in Hno. apply Hno.
    apply no_match_iff. intros r Hr.
    apply (proj1 (no_match_iff _ _ _) Hyes).
    apply command_filters_after in Hr as (f & Hf & Hc).
    apply command_filters_after. exists f. split; [|done].
    apply elem_of_app. by left.
Qed.

(** X2: the state of the module depends only on which calls were made,
    not on their order or on how often each was made. *)
Theorem history_order_irrelevant ks ks' :
  (∀ k, k ∈ ks ↔ k ∈ ks') →
  after re_compile ks = after re_compile ks'.
Proof.
  intros Hsame. apply filters_eq; apply set_eq; intros x.
  - rewrite !file_filters_after. by setoid_rewrite Hsame.
  - rewrite !command_filters_after. by setoid_rewrite Hsame.
  - rewrite !(strings_after _PATTERN_FILTERS Add_pattern
                (call_patterns re_compile) eq_refl). apply Hsame.
  - rewrite !(strings_after _REGEX_PATTERN_FILTERS Add_regex_pattern
                (call_regex_patterns re_compile) eq_refl). apply Hsame.
  - rewrite !(strings_after _KEYWORD_FILTERS Add_keyword
                (call_keywords re_compile) eq_refl). apply Hsame.
Qed.

(** X3: [allow_file] depends on the [add_file] calls of a history only,
    and [allow_command] on its [add_command] calls only: dropping every
    other call changes neither answer. *)
Theorem allow_reads_its_own_filters ks (c : string) :
  allow_file re_match c (after re_compile ks)
  = allow_file re_match c (after re_compile (List.filter is_add_file ks))
  ∧ allow_command re_match c (after re_compile ks)
    = allow_command re_match c
        (after re_compile (List.filter is_add_command ks)).
Proof.
  split.
  - unfold allow_file. f_equal. f_equal. f_equal.
    apply set_eq. intros r. rewrite !file_filters_after.
    split; intros (f & Hf & Hc); exists f; (split; [|done]).
    + apply list_elem_of_In, filter_In. split; [|done].
      by apply list_elem_of_In.
    + by apply list_elem_of_In, filter_In in Hf as [?%list_elem_of_In _].
  - unfold allow_command. f_equal. f_equal. f_equal.
    apply set_eq. intros r. rewrite !command_filters_after.
    split; intros (f & Hf & Hc); exists f; (split; [|done]).
    + apply list_elem_of_In, filter_In. split; [|done].
      by apply list_elem_of_In.
    + by apply list_elem_of_In, filter_In in Hf as [?%list_elem_of_In _].
Qed.
End blacklist_histories.

Section blacklist_history_examples.
Import blacklist demo.

(** Two histories with the same calls, in another order and with one
    repeated. *)
Lemma history_order_irrelevant_witness :
  after literal_compile
    [Add_file "/etc/sh"; Add_keyword "secret"; Add_file "/etc/sh"]
  = after literal_compile [Add_keyword "secret"; Add_file "/etc/sh"].
Proof.
  refine (history_order_irrelevant literal_compile
            [Add_file "/etc/sh"; Add_keyword "secret"; Add_file "/etc/sh"]
            [Add_keyword "secret"; Add_file "/etc/sh"] _).
  intros k. rewrite !elem_of_cons, !elem_of_nil. tauto.
Defined.
End blacklist_history_examples.

(** ** The reachability pass: the known set and the keys of the table *)

Section reachability_more.
Import dr shell spec.
Context {Value Fault : Type}.
Variable R : Registry.

Implicit Types (b : Broker Value Fault) (fr : Frame Value Fault).
Implicit Types (c comp : Comp) (order pre post : list Comp).

Lemma visit_state_grows fr comp : state fr ⊆ state (visit R fr comp).
Proof.
  unfold visit. destruct (DELEGATES R !! comp); [|done].
  destruct (negb _); [|done].
  destruct (get_missing_dependencies _ _); [done|].
  simpl. apply union_subseteq_r.
Qed.

Lemma walk_app order post b :
  walk R (order ++ post) b = foldl (visit R) (walk R order b) post.
Proof. unfold walk. apply foldl_app. Qed.

Lemma visits_state_grow post fr : state fr ⊆ state (foldl (visit R) fr post).
Proof.
  revert fr. induction post as [|x post IH]; intros fr; [done|].
  simpl. etrans; [apply (visit_state_grows fr x)|apply IH].
Qed.

(** X4: the known set only grows along the walk, and it always holds
    the components that have a value in the broker. *)
Theorem known_set_grows b pre post :
  state (walk R pre b) ⊆ state (walk R (pre ++ post) b)
  ∧ dom (instances b) ⊆ state (walk R pre b).
Proof.
  split.
  - rewrite walk_app. apply visits_state_grow.
  - apply (visits_state_grow pre (enter b)).
Qed.

(** X5: every key of the table the pass returns is the friendly name
    of its component or its qualified name with dots replaced by
    underscores, and the component is registered and is no
    data-source. *)
Theorem table_keys b (key : string) c :
  (get_available_models R b).1 !! key = Some c →
  (key = friendly_name R c
   ∨ key = replace "."%char "_"%char (get_name R c))
  ∧ is_Some (DELEGATES R !! c)
  ∧ plugins.is_datasource R c = false.
Proof.
  simpl. intros Hc. split; [by apply walk_keys in Hc|].
  apply walk_models in Hc as (pre & post & _ & d & Hd & Hds & _).
  split; [by exists d|done].
Qed.

(** The table when no two components of the order share a friendly
    name: the admitted components, each under its friendly name. *)
Lemma walk_models_distinct order b :
  NoDup (friendly_name R <$> order) →
  ∀ (key : string) c,
    models (walk R order b) !! key = Some c
    ↔ key = friendly_name R c
      ∧ ∃ pre post, order = pre ++ c :: post
                    ∧ admitted R (state (walk R pre b)) c.
Proof.
  induction order as [|x order IH] using rev_ind; intros Hnd key c.
  - simpl. rewrite lookup_empty. split; [done|].
    intros (_ & pre & post & Heq & _). by destruct pre.
  - rewrite fmap_app in Hnd. apply NoDup_app in Hnd as (Hnd & Hfresh & _).
    specialize (IH Hnd).
    assert (∀ c', c' ∈ order → friendly_name R c' ≠ friendly_name R x)
      as Hx.
    { intros c' Hc' Heq. apply (Hfresh (friendly_name R c')).
      - apply list_elem_of_fmap. by exists c'.
      - rewrite Heq. simpl. by left. }
    assert (∀ pre post, order ++ [x] = pre ++ c :: post →
              (post = [] ∧ c = x ∧ pre = order)
              ∨ (∃ post', post = post' ++ [x] ∧ order = pre ++ c :: post'))
      as Hsplit.
    { intros pre post Heq.
      destruct post as [|y post _] using rev_ind.
      - apply app_inj_tail in Heq as [-> ->]. by left.
      - rewrite app_comm_cons, app_assoc in Heq.
        apply app_inj_tail in Heq as [-> ->]. right. by exists post. }
    rewrite walk_snoc.
    destruct (admitted_dec R (state (walk R order b)) x) as [Hadm|Hnot].
    + rewrite (visit_admitted _ _ _ Hadm). simpl.
      assert (models (walk R order b) !! friendly_name R x = None) as Hnone.
      { destruct (models (walk R order b) !! friendly_name R x) as [c'|]
          eqn:Hc'; [|done].
        apply IH in Hc' as (Heq & pre & post & -> & _).
        destruct (Hx c'); [|done].
        apply elem_of_app. right. by left. }
      unfold store. rewrite Hnone. rewrite lookup_insert.
      case_decide as Hkey.
      * subst key. split.
        -- intros [= <-]. split; [done|]. by exists order, [].
        -- intros (Heq & pre & post & Hord & _).
           destruct (Hsplit _ _ Hord) as [(_ & -> & _)|(post' & _ & ->)];
             [done|].
           destruct (Hx c); [|done]. apply elem_of_app. right. by left.
      * rewrite IH. split.
        -- intros (-> & pre & post & -> & Hc). split; [done|].
           exists pre, (post ++ [x]). by rewrite <- app_assoc.
        -- intros (-> & pre & post & Hord & Hc). split; [done|].
           destruct (Hsplit _ _ Hord) as [(_ & -> & _)|(post' & _ & ->)];
             [done|].
           by exists pre, post'.
    + rewrite (visit_not_admitted _ _ _ Hnot). rewrite IH. split.
      * intros (-> & pre & post & -> & Hc). split; [done|].
        exists pre, (post ++ [x]). by rewrite <- app_assoc.
      * intros (-> & pre & post & Hord & Hc). split; [done|].
        destruct (Hsplit _ _ Hord) as [(_ & -> & ->)|(post' & _ & ->)];
          [done|].
        by exists pre, post'.
Qed.

(** X6: when no two components of the run order share a friendly
    name, the table the pass returns holds exactly the components
    admitted at their turn, each under its friendly name. *)
Theorem table_without_collisions b :
  NoDup (friendly_name R <$> run_order R (COMPONENTS R single)) →
  ∀ (key : string) c,
    (get_available_models R b).1 !! key = Some c
    ↔ key = friendly_name R c
      ∧ ∃ pre post,
          run_order R (COMPONENTS R single) = pre ++ c :: post
          ∧ admitted R (state (walk R pre b)) c.
Proof. intros Hnd key c. simpl. by apply walk_models_distinct. Qed.

Lemma admitted_mono (known known' : gset Comp) c :
  known ⊆ known' → admitted R known c → admitted R known' c.
Proof.
  intros Hsub (d & Hd & Hds & Hreq & Halo). exists d.
  split; [done|]. split; [done|]. split.
  - intros r Hr. apply Hsub. by apply Hreq.
  - intros g Hg. destruct (Halo g Hg) as (e & He & Hk).
    exists e. split; [done|]. by apply Hsub.
Qed.

Lemma visit_state_mono fr fr' c :
  state fr ⊆ state fr' →
  state (visit R fr c) ⊆ state (visit R fr' c).
Proof.
  intros Hsub.
  destruct (admitted_dec R (state fr) c) as [Hadm|Hnot].
  - rewrite (visit_admitted _ _ _ Hadm).
    rewrite (visit_admitted _ _ _ (admitted_mono _ _ _ Hsub Hadm)).
    simpl. by apply union_mono_l.
  - rewrite (visit_not_admitted _ _ _ Hnot).
    etrans; [done|apply visit_state_grows].
Qed.

(** X7: reachability is monotone in what the broker holds: with more
    components holding a value, every component that was known after
    the walk is still known after it. *)
Theorem more_values_more_known order b b' :
  dom (instances b) ⊆ dom (instances b') →
  state (walk R order b) ⊆ state (walk R order b').
Proof.
  intros Hsub. induction order as [|x order IH] using rev_ind; [done|].
  rewrite !walk_snoc. by apply visit_state_mono.
Qed.

(** X19: the collision branch as it is meant to work.  When the
    friendly name of a component is taken by an earlier one, and the
    qualified name of the earlier one, with underscores, is neither
    that friendly name nor the underscored qualified name of the new
    component, then both are in the table under their underscored
    qualified names, and no other key is touched. *)
Theorem collision_keeps_both comp prev (m : gmap string Comp) :
  m !! friendly_name R comp = Some prev →
  replace "."%char "_"%char (get_name R prev)
  ≠ replace "."%char "_"%char (get_name R comp) →
  replace "."%char "_"%char (get_name R prev) ≠ friendly_name R comp →
  store R comp m !! replace "."%char "_"%char (get_name R prev) = Some prev
  ∧ store R comp m !! replace "."%char "_"%char (get_name R comp)
    = Some comp
  ∧ ∀ key,
      key ≠ friendly_name R comp →
      key ≠ replace "."%char "_"%char (get_name R prev) →
      key ≠ replace "."%char "_"%char (get_name R comp) →
      store R comp m !! key = m !! key.
Proof.
  intros Hprev Hne Hfr. unfold store. rewrite Hprev.
  split; [|split].
  - rewrite lookup_insert_ne by done.
    rewrite lookup_delete_ne by done.
    apply lookup_insert_eq.
  - apply lookup_insert_eq.
  - intros key Hk1 Hk2 Hk3.
    rewrite lookup_insert_ne by done.
    rewrite lookup_delete_ne by done.
    by rewrite lookup_insert_ne.
Qed.
End reachability_more.

Section reachability_more_examples.
Import dr shell spec demo.

(** The key of the rule in the table of the seeded broker. *)
Lemma table_keys_witness :
  ("kernel_check_report" = friendly_name registry report
   ∨ "kernel_check_report"
     = replace "."%char "_"%char (get_name registry report))
  ∧ is_Some (DELEGATES registry !! report)
  ∧ plugins.is_datasource registry report = false.
Proof.
  refine (table_keys registry seeded "kernel_check_report" report _).
  vm_compute. reflexivity.
Defined.

(** The five friendly names of the registry are distinct, and the
    parser [Hostname], admitted at its turn, is in the table under
    its own. *)
Lemma table_without_collisions_witness :
  (get_available_models registry seeded).1 !! friendly_name registry Hostname
  = Some Hostname.
Proof.
  refine (proj2 (table_without_collisions registry seeded _
                   (friendly_name registry Hostname) Hostname) _).
  - refine (bool_decide_unpack _ _). vm_compute. exact I.
  - split; [reflexivity|].
    exists [hostname; uname], [Uname; report].
    split; [vm_compute; reflexivity|].
    exists (mkDelegate [hostname] []). split; [vm_compute; reflexivity|].
    split; [vm_compute; reflexivity|].
    apply get_missing_dependencies_None. vm_compute. reflexivity.
Defined.

(** From the empty broker to the seeded one. *)
Lemma more_values_more_known_witness :
  state (walk registry [hostname; uname; Hostname] empty_broker)
  ⊆ state (walk registry [hostname; uname; Hostname] seeded).
Proof.
  refine (more_values_more_known registry [hostname; uname; Hostname]
            empty_broker seeded _).
  refine (bool_decide_unpack _ _). vm_compute. exact I.
Defined.

(** The rule of [pkg.foo] first, then the rule of [foo]: both are
    kept at the collision. *)
Lemma collision_keeps_both_witness :
  store rules foo_report {[ "foo_report" := pkg_foo_report ]}
    !! replace "."%char "_"%char (get_name rules pkg_foo_report)
  = Some pkg_foo_report
  ∧ store rules foo_report {[ "foo_report" := pkg_foo_report ]}
      !! replace "."%char "_"%char (get_name rules foo_report)
    = Some foo_report.
Proof.
  refine ((λ H, conj (proj1 H) (proj1 (proj2 H)))
            (collision_keeps_both rules foo_report pkg_foo_report
               {[ "foo_report" := pkg_foo_report ]} _ _ _)).
  - vm_compute. reflexivity.
  - vm_compute. discriminate.
  - vm_compute. discriminate.
Defined.
End reachability_more_examples.

(** ** The selective evaluator: what a session keeps, asks and shows *)

Section evaluator_more.
Import dr shell spec.
Context {Value Fault : Type}.
Variable R : Registry.
Variable dr_run : list Comp → Broker Value Fault → Broker Value Fault * list Comp.
Variable re_search : string → string → bool.
Variable response_type : Value → option string.

Implicit Types (b : Broker Value Fault) (self : Models Value Fault).
Implicit Types (c comp : Comp) (ts : list Comp) (q : Request).

Lemma tracked_run_fields ts self :
  let self' := _coverage_tracking (call_run dr_run ts) self in
  table self' = table self
  ∧ _requested self' = _requested self
  ∧ _cov self' = _cov self
  ∧ effects self'
    = effects self ++ tracked (_cov self) ts (dr_run ts (_broker self)).2.
Proof.
  unfold _coverage_tracking, call_run, emit, tracked.
  destruct (_cov self) eqn:Hcov; simpl;
    destruct (dr_run ts (_broker self)) as [b' inv]; simpl;
    rewrite ?Hcov, <- ?app_assoc; done.
Qed.

(** What [evaluate] leaves of the object besides the broker. *)
Lemma evaluate_fields name self :
  let r := evaluate R dr_run name self in
  table r.2 = table self
  ∧ _cov r.2 = _cov self
  ∧ _requested r.2
    = match lookup_component R name self with
      | Some comp =>
          if plugins.is_rule R comp then _requested self
          else {[ (name, comp) ]} ∪ _requested self
      | None => _requested self
      end
  ∧ ∃ new, effects r.2 = effects self ++ new
           ∧ request_effects (_cov self) new.
Proof.
  unfold evaluate.
  destruct (lookup_component R name self) as [comp|]; cbn [fst snd].
  2:{ repeat split; try done. exists []. rewrite app_nil_r.
      split; [done|constructor]. }
  set (self1 := if negb (plugins.is_rule R comp) then _ else self).
  assert (table self1 = table self ∧ _cov self1 = _cov self
          ∧ _broker self1 = _broker self ∧ effects self1 = effects self
          ∧ _requested self1
            = if plugins.is_rule R comp then _requested self
              else {[ (name, comp) ]} ∪ _requested self)
    as (Ht & Hc & Hb & He & Hr).
  { unfold self1. by destruct (plugins.is_rule R comp). }
  destruct (contains (_broker self1) comp).
  { cbn [fst snd]. rewrite Ht, Hc, Hr, He. repeat split; try done.
    exists []. rewrite app_nil_r. split; [done|constructor]. }
  destruct (bool_decide (comp ∈ dom (exceptions (_broker self1))) || _).
  { cbn [fst snd]. unfold _dump_diagnostics, emit.
    cbn [table _cov _requested effects]. rewrite Ht, Hc, Hr, He.
    repeat split; try done. eexists. split; [done|constructor]. }
  cbn [fst snd].
  destruct (tracked_run_fields [comp] self1) as (Ht' & Hr' & Hc' & He').
  set (self2 := _coverage_tracking (call_run dr_run [comp]) self1) in *.
  rewrite Ht in Ht'. rewrite Hr in Hr'. rewrite Hc in Hc', He'.
  rewrite He, Hb in He'.
  destruct (negb (contains (_broker self2) comp)).
  2:{ rewrite Ht', Hc', Hr', He'. repeat split; try done.
      eexists. split; [done|constructor]. }
  destruct (bool_decide (comp ∈ dom (exceptions (_broker self2))) || _);
    unfold _dump_diagnostics, emit; cbn [table _cov _requested effects];
    rewrite Ht', Hc', Hr', He', <- app_assoc;
    repeat split; try done; eexists; (split; [done|constructor]).
Qed.

Lemma evaluate_all_fields (m i : Arg) self :
  let self' := evaluate_all R dr_run re_search m i self in
  table self' = table self
  ∧ _cov self' = _cov self
  ∧ _requested self' = _requested self
  ∧ ∃ new, effects self' = effects self ++ new
           ∧ request_effects (_cov self) new.
Proof.
  unfold evaluate_all.
  destruct (_desugar_match_ignore R re_search m i self) as [mt ig].
  destruct (tasks_of R mt ig self) as [|t ts].
  { repeat split; try done. exists []. rewrite app_nil_r.
    split; [done|constructor]. }
  destruct (tracked_run_fields (t :: ts) self) as (Ht & Hr & Hc & He).
  unfold find, emit. cbn [table _cov _requested effects].
  rewrite Ht, Hc, Hr, He, <- app_assoc. repeat split; try done.
  eexists. split; [done|constructor].
Qed.

Lemma serve_fields self q :
  let self' := serve R dr_run re_search self q in
  table self' = table self
  ∧ _cov self' = _cov self
  ∧ (_requested self' = _requested self
     ∨ ∃ name comp,
         q = Evaluate name
         ∧ lookup_component R name self = Some comp
         ∧ plugins.is_rule R comp = false
         ∧ _requested self' = {[ (name, comp) ]} ∪ _requested self)
  ∧ ∃ new, effects self' = effects self ++ new
           ∧ request_effects (_cov self) new.
Proof.
  destruct q as [name|m i]; simpl.
  - destruct (evaluate_fields name self) as (Ht & Hc & Hr & He).
    repeat split; try done.
    destruct (lookup_component R name self) as [comp|] eqn:Hl; [|by left].
    destruct (plugins.is_rule R comp) eqn:Hrule; [by left|].
    right. by exists name, comp.
  - destruct (evaluate_all_fields m i self) as (Ht & Hc & Hr & He).
    repeat split; try done. by left.
Qed.

(** X8: a session never changes the model table nor the coverage
    setting, and never forgets a requested model; a pair it records is
    a name some [evaluate] of the session was given, with the
    component the name stands for, which is not a rule. *)
Theorem session_keeps_table (qs : list Request) self :
  let self' := session R dr_run re_search qs self in
  table self' = table self
  ∧ _cov self' = _cov self
  ∧ _requested self ⊆ _requested self'
  ∧ ∀ name comp,
      (name, comp) ∈ _requested self' →
      (name, comp) ∈ _requested self
      ∨ (Evaluate name ∈ qs
         ∧ lookup_component R name self = Some comp
         ∧ plugins.is_rule R comp = false).
Proof.
  revert self. induction qs as [|q qs IH]; intros self; simpl.
  { repeat split; try done. intros name comp ?. by left. }
  destruct (serve_fields self q) as (Ht & Hc & Hr & _).
  destruct (IH (serve R dr_run re_search self q)) as (Ht' & Hc' & Hr' & Hn').
  split; [by rewrite Ht'|]. split; [by rewrite Hc'|].
  assert (∀ name, lookup_component R name (serve R dr_run re_search self q)
                  = lookup_component R name self) as Hlook.
  { intros name. unfold lookup_component. by rewrite Ht. }
  split.
  - etrans; [|exact Hr'].
    destruct Hr as [->|(name & comp & _ & _ & _ & ->)]; [done|].
    apply union_subseteq_r.
  - intros name comp Hin.
    destruct (Hn' name comp Hin) as [Hold|(Hq & Hl & Hrule)].
    + destruct Hr as [Heq|(name' & comp' & -> & Hl & Hrule & Heq)];
        rewrite Heq in Hold; [by left|].
      apply elem_of_union in Hold as [Hnew|?]; [|by left].
      apply elem_of_singleton in Hnew as [= -> ->].
      right. split; [by left|done].
    + right. rewrite Hlook in Hl. split; [by right|done].
Qed.

(** X9: a request calls the scheduler at most once, never with an
    empty list of targets and never for a component that is resolved
    in the broker when the request is made. *)
Theorem scheduler_asked_for_unresolved self q :
  ∃ new,
    scheduler_calls (effects (serve R dr_run re_search self q))
    = scheduler_calls (effects self) ++ new
    ∧ length new ≤ 1
    ∧ ∀ ts, ts ∈ new →
        ts ≠ [] ∧ ∀ c, c ∈ ts → resolved (_broker self) c = false.
Proof.
  destruct q as [name|m i]; simpl.
  - destruct (lookup_component R name self) as [comp|] eqn:Hname.
    + destruct (resolved (_broker self) comp) eqn:Hres.
      * destruct (evaluate_resolved R dr_run _ _ _ Hname Hres)
          as (_ & _ & Hs & _).
        exists []. rewrite app_nil_r. split; [done|]. split; [simpl; lia|].
        intros ts Hts. by apply elem_of_nil in Hts.
      * destruct (evaluate_unresolved R dr_run _ _ _ Hname Hres)
          as (_ & Hs & _).
        exists [[comp]]. split; [done|]. split; [simpl; lia|].
        intros ts Hts. apply list_elem_of_singleton in Hts as ->.
        split; [done|]. intros c Hc.
        by apply list_elem_of_singleton in Hc as ->.
    + exists []. rewrite app_nil_r. unfold evaluate. rewrite Hname.
      split; [done|]. split; [simpl; lia|].
      intros ts Hts. by apply elem_of_nil in Hts.
  - destruct (evaluate_all_cases R dr_run re_search m i self)
      as [Hnil Hcons].
    destruct (tasks_of R _ _ self) as [|t ts'] eqn:Htasks.
    + exists []. rewrite app_nil_r, Hnil; [|done].
      split; [done|]. split; [simpl; lia|].
      intros ts Hts. by apply elem_of_nil in Hts.
    + destruct Hcons as (_ & Hs & _); [done|].
      exists [t :: ts']. split; [done|]. split; [simpl; lia|].
      intros ts Hts. apply list_elem_of_singleton in Hts as ->.
      split; [done|]. intros c Hc. rewrite <- Htasks in Hc.
      by apply tasks_of_spec in Hc as (_ & _ & _ & ?).
Qed.

Lemma well_tracked_app (cov : bool) (es es' : list Effect) :
  well_tracked cov es = true →
  well_tracked cov es' = true →
  well_tracked cov (es ++ es') = true.
Proof.
  intros Hes Hes'. remember (length es) as n eqn:Hn.
  revert es Hn Hes. induction (lt_wf n) as [n _ IH]. intros es -> Hes.
  destruct es as [|e es]; [done|].
  destruct e; simpl in *; try done.
  - destruct es as [|[] [|[] es]]; try done.
    apply andb_true_iff in Hes as [-> Hes]. simpl.
    apply (IH (length es)); [simpl; lia|done|done].
  - apply andb_true_iff in Hes as [-> Hes]. simpl.
    apply (IH (length es)); [lia|done|done].
  - apply (IH (length es)); [lia|done|done].
  - apply (IH (length es)); [lia|done|done].
  - apply (IH (length es)); [lia|done|done].
Qed.

Lemma request_effects_tracked (cov : bool) (new : list Effect) :
  request_effects cov new → well_tracked cov new = true.
Proof. intros []; unfold tracked; by destruct cov. Qed.

(** X10: over a session, coverage is tracked around the scheduler and
    nowhere else: with a tracker, each scheduler call stands between a
    start and a stop that enclose nothing else; without one, the
    tracker is never touched. *)
Theorem session_tracks_coverage (qs : list Request) self :
  well_tracked (_cov self) (effects self) = true →
  well_tracked (_cov self)
    (effects (session R dr_run re_search qs self)) = true.
Proof.
  revert self. induction qs as [|q qs IH]; intros self Hwt; [done|].
  simpl. destruct (serve_fields self q) as (_ & Hc & _ & new & He & Hnew).
  rewrite <- Hc. apply IH. rewrite Hc, He.
  apply well_tracked_app; [done|by apply request_effects_tracked].
Qed.

(** X11: given a key of the table as [match] (and no [ignore]), bulk
    evaluation does not search with it as a regular expression: its
    tasks are the unresolved components of the table whose qualified
    name equals that of the component under the key. *)
Theorem evaluate_all_by_key (s : string) self c :
  table self !! s = Some c →
  ∀ c', c' ∈ tasks_of R
               (_desugar_match_ignore R re_search (Arg_str s) Arg_none self).1
               (_desugar_match_ignore R re_search (Arg_str s) Arg_none self).2
               self
        ↔ (∃ key, table self !! key = Some c')
          ∧ get_name R c' = get_name R c
          ∧ resolved (_broker self) c' = false.
Proof.
  intros Hs c'. rewrite tasks_of_spec. unfold _desugar_match_ignore.
  rewrite Hs. simpl. rewrite String.eqb_eq. split.
  - intros (? & ? & _ & ?). done.
  - intros (? & ? & ?). done.
Qed.

(** X12: the colour of a component tells its state in the broker: no
    colour exactly when it is unresolved, red exactly when it holds no
    value and has a recorded fault, and green only when it holds a
    value. *)
Theorem colour_tells_state comp self :
  (_get_color R response_type comp self = ""
     ↔ resolved (_broker self) comp = false)
  ∧ (_get_color R response_type comp self = "red"
     ↔ contains (_broker self) comp = false
       ∧ comp ∈ dom (exceptions (_broker self)))
  ∧ (_get_color R response_type comp self = "green"
     → contains (_broker self) comp = true).
Proof.
  unfold _get_color. rewrite resolved_split.
  destruct (contains (_broker self) comp); simpl.
  { destruct (_ && _); repeat split; try done; intros [? ?]; done. }
  case_bool_decide as Hexc; simpl.
  { repeat split; try done. }
  case_bool_decide as Hmis; simpl.
  { repeat split; try done. intros [_ ?]. done. }
  repeat split; try done. intros [_ ?]. done.
Qed.

(** X20: over the table the reachability pass returns, bulk
    evaluation never hands the scheduler a data-source or an
    unregistered component as a target, whatever [match] and [ignore]
    are. *)
Theorem evaluate_all_targets_models (m i : Arg) self b c :
  table self = (get_available_models R b).1 →
  c ∈ tasks_of R (_desugar_match_ignore R re_search m i self).1
        (_desugar_match_ignore R re_search m i self).2 self →
  plugins.is_datasource R c = false ∧ is_Some (DELEGATES R !! c).
Proof.
  intros Htable Hc. apply tasks_of_spec in Hc as ((key & Hkey) & _).
  rewrite Htable in Hkey. simpl in Hkey.
  apply walk_models in Hkey as (pre & post & _ & d & Hd & Hds & _).
  split; [done|by exists d].
Qed.
End evaluator_more.

Section evaluator_more_examples.
Import dr shell spec demo.

(** A session from the start of the shell, where nothing has happened
    yet. *)
Lemma session_tracks_coverage_witness :
  well_tracked (_cov (start registry seeded))
    (effects (session registry (run registry bodies) literal_search
                [Evaluate "Hostname"; Evaluate_all Arg_none Arg_none]
                (start registry seeded)))
  = true.
Proof.
  refine (session_tracks_coverage registry (run registry bodies)
            literal_search
            [Evaluate "Hostname"; Evaluate_all Arg_none Arg_none]
            (start registry seeded) _).
  vm_compute. reflexivity.
Defined.

(** [Hostname] is a key of the table; its component is the one task. *)
Lemma evaluate_all_by_key_witness :
  Hostname
  ∈ tasks_of registry
      (_desugar_match_ignore registry literal_search (Arg_str "Hostname")
         Arg_none (start registry seeded)).1
      (_desugar_match_ignore registry literal_search (Arg_str "Hostname")
         Arg_none (start registry seeded)).2
      (start registry seeded).
Proof.
  refine (proj2 (evaluate_all_by_key registry literal_search "Hostname"
                   (start registry seeded) Hostname _ Hostname) _).
  - vm_compute. reflexivity.
  - split; [exists "Hostname"; vm_compute; reflexivity|].
    split; [reflexivity|vm_compute; reflexivity].
Defined.

(** The tasks of a bulk evaluation at the start of the shell. *)
Lemma evaluate_all_targets_models_witness :
  plugins.is_datasource registry report = false
  ∧ is_Some (DELEGATES registry !! report).
Proof.
  refine (evaluate_all_targets_models registry literal_search Arg_none
            Arg_none (start registry seeded) seeded report _ _).
  - reflexivity.
  - refine (bool_decide_unpack _ _). vm_compute. exact I.
Defined.
End evaluator_more_examples.

(** ** Saving a rule *)

Section make_rule_facts.
Import shell.
Variable realpath : string → string.

Lemma prefix_append (a b : string) : String.prefix a (a +:+ b) = true.
Proof.
  induction a as [|x a IH]; simpl; [by destruct b|].
  destruct (ascii_dec x x); [done|congruence].
Qed.

(** X13: [make_rule] touches no file but its target; it leaves an
    existing target as it is unless [overwrite] is set, saying so; and
    when the target does not exist or [overwrite] is set, the target
    holds the generated text afterwards.  Without a path nothing is
    written. *)
Theorem make_rule_never_clobbers (cwd res path : string)
    (overwrite : bool) (fs : gmap string string) :
  let r := make_rule_output realpath cwd res (Some path) overwrite fs in
  let t := target realpath cwd path in
  (∀ p, p ≠ t → r.1 !! p = fs !! p)
  ∧ (path ≠ "" → overwrite = false → is_Some (fs !! t) →
     r = (fs, [Print_exists t]))
  ∧ (path ≠ "" → overwrite = true ∨ fs !! t = None →
     r.1 !! t = Some res)
  ∧ make_rule_output realpath cwd res None overwrite fs = (fs, [Page res])
  ∧ make_rule_output realpath cwd res (Some "") overwrite fs
    = (fs, [Page res]).
Proof.
  intros r t. subst r. unfold make_rule_output. fold t.
  split; [|split; [|split; [|done]]].
  - intros p Hp. destruct (String.eqb path ""); [done|].
    destruct (bool_decide (t ∈ dom fs) && negb overwrite); [done|].
    destruct (negb (bool_decide (t ∈ dom fs)) || overwrite); [|done].
    simpl. by rewrite lookup_insert_ne.
  - intros Hpath -> Hsome. apply String.eqb_neq in Hpath. rewrite Hpath.
    apply elem_of_dom in Hsome. by rewrite (bool_decide_eq_true_2 _ Hsome).
  - intros Hpath Hok. apply String.eqb_neq in Hpath. rewrite Hpath.
    destruct Hok as [->|Hnone].
    + rewrite andb_false_r, orb_true_r. simpl. apply lookup_insert_eq.
    + apply not_elem_of_dom in Hnone.
      rewrite (bool_decide_eq_false_2 _ Hnone). simpl.
      apply lookup_insert_eq.
Qed.

(** X14: where a relative path is written.  When the string
    [self._cwd] is a prefix of the real path of the path, the path is
    used as given; otherwise the target is the path joined to
    [self._cwd], a string of which [self._cwd] is a prefix.  The test
    is on strings: it does not say that the file lies inside that
    directory. *)
Theorem relative_rule_target (cwd path : string) :
  String.prefix "/" path = false →
  (String.prefix cwd (realpath path) = true
   ∧ target realpath cwd path = path)
  ∨ (String.prefix cwd (realpath path) = false
     ∧ target realpath cwd path = path_join cwd path
     ∧ String.prefix cwd (target realpath cwd path) = true).
Proof.
  intros Hrel. unfold target. rewrite Hrel. simpl.
  destruct (String.prefix cwd (realpath path)) eqn:Hunder; [by left|].
  right. simpl. split; [done|]. split; [done|].
  unfold path_join. rewrite Hrel.
  destruct (String.eqb cwd "" || ends_with_slash cwd);
    apply prefix_append.
Qed.
End make_rule_facts.

Section make_rule_examples.
Import shell demo.

(** Started in [/home/user] and changed into the archive, the shell
    saves [rule.py] as [/home/user/rule.py]. *)
Lemma relative_rule_target_witness :
  (String.prefix "/home/user" (archive_realpath "rule.py") = true
   ∧ target archive_realpath "/home/user" "rule.py" = "rule.py")
  ∨ (String.prefix "/home/user" (archive_realpath "rule.py") = false
     ∧ target archive_realpath "/home/user" "rule.py"
       = path_join "/home/user" "rule.py"
     ∧ String.prefix "/home/user"
         (target archive_realpath "/home/user" "rule.py") = true).
Proof.
  refine (relative_rule_target archive_realpath "/home/user" "rule.py" _).
  vm_compute. reflexivity.
Defined.

(** The prefix test is not containment: a real path under
    [/home/user2] passes it for [/home/user], and the path is then used
    as given. *)
Example prefix_test_is_not_containment :
  target (λ path, "/home/user2/" +:+ path) "/home/user" "rule.py"
  = "rule.py".
Proof. vm_compute. reflexivity. Qed.
End make_rule_examples.

(** ** Registration and unregistration *)

Section client_facts.
Import client.
Variable generate_machine_id : bool → string.

Implicit Types (config : Config) (pconn : Connection) (es : list Effect).

Lemma filter_logs (f : Effect → bool) (l : Level) (ms : list string) :
  (∀ m, f (Log l m) = false) → List.filter f (Log l <$> ms) = [].
Proof.
  intros Hf. induction ms as [|m ms IH]; [done|].
  simpl. by rewrite Hf.
Qed.

(** Rewriting with the effects filtered out of a concatenation. *)
Ltac filter_effects :=
  repeat (rewrite ?List.filter_app, ?(filter_logs _ Debug) by done; simpl).

(** The case analysis of [_legacy_handle_registration], each case
    closed by [tac]. *)
Ltac registration_cases config pconn tac :=
  destruct (unreachable (check_answer pconn)); cbn [fst snd];
    [by tac|];
  destruct (status (check_answer pconn)); cbn [fst snd];
    [destruct (register_option config); by tac|];
  destruct (register_option config); cbn [fst snd];
    [|destruct (negb (falsy (unreg_date (check_answer pconn)))); by tac];
  destruct (falsy (username config) && falsy (password config)
            && negb (auto_config config)
            && String.eqb (authmethod config) "BASIC");
    cbn [fst snd]; [by tac|];
  destruct (register_answer pconn) as [[[message hostname] g] d];
  destruct (falsy hostname); cbn [fst snd]; [by tac|];
  destruct (bool_decide (display_name config = None)),
    (bool_decide (group config = None)), (String.eqb message "");
    cbn [andb fst snd]; by tac.

(** X15: legacy registration resyncs the marker files with its answer:
    it writes the registered marker, and nothing else, exactly when it
    returns [True]; the unregistered marker, with the date the API
    gave, exactly when it returns [False]; and no marker when it
    returns [None] or raises. *)
Theorem registration_resyncs_markers config pconn :
  let r := _legacy_handle_registration generate_machine_id config pconn in
  markers r.2
  = match r.1 with
    | Returned (Some true) => [Write_registered_file]
    | Returned (Some false) =>
        [Write_unregistered_file (unreg_date (check_answer pconn))]
    | Returned None | Raised _ => []
    end.
Proof.
  unfold _legacy_handle_registration, get_registration_status, register,
    markers.
  destruct (reregister config); registration_cases config pconn filter_effects.
Qed.

(** X16: how legacy registration ends.  It raises a [TypeError]
    exactly when the API is reachable and reports the host as not
    registered, registration is asked for, and [register] refuses for
    want of BASIC credentials; it returns [None] exactly when the API is
    unreachable or the registration call comes back without a host
    name; and it returns [False] exactly when the host is not
    registered and registration is not asked for. *)
Theorem registration_outcomes config pconn :
  let r := _legacy_handle_registration generate_machine_id config pconn in
  let check := check_answer pconn in
  let refused :=
    falsy (username config) && falsy (password config)
    && negb (auto_config config)
    && String.eqb (authmethod config) "BASIC" in
  (r.1 = Raised "TypeError"
     ↔ unreachable check = false ∧ status check = false
       ∧ register_option config = true ∧ refused = true)
  ∧ (r.1 = Returned None
     ↔ unreachable check = true
       ∨ (status check = false ∧ register_option config = true
          ∧ refused = false
          ∧ falsy (register_answer pconn).1.1.2 = true))
  ∧ (r.1 = Returned (Some false)
     ↔ unreachable check = false ∧ status check = false
       ∧ register_option config = false).
Proof.
  cbv zeta.
  unfold _legacy_handle_registration, get_registration_status, register.
  destruct (unreachable (check_answer pconn)),
    (status (check_answer pconn)), (register_option config);
    cbn [fst snd]; try (solve [intuition congruence]).
  destruct (falsy (username config) && falsy (password config)
            && negb (auto_config config)
            && String.eqb (authmethod config) "BASIC");
    cbn [fst snd]; [solve [intuition congruence]|].
  destruct (register_answer pconn) as [[[message hostname] g] d].
  cbn [fst snd].
  destruct (falsy hostname); cbn [fst snd]; intuition congruence.
Qed.

(** X17: with [reregister] the three local registration files are
    deleted, and they are deleted before the API is asked anything,
    whatever it then answers; without it nothing is deleted. *)
Theorem reregister_wipes_before_asking config pconn :
  let r := _legacy_handle_registration generate_machine_id config pconn in
  deletions r.2
  = (if reregister config
     then [Delete_registered_file; Delete_unregistered_file;
           Delete_machine_id]
     else [])
  ∧ ∃ pre post,
      r.2 = pre ++ Api_check :: post
      ∧ api_calls pre = []
      ∧ deletions post = [].
Proof.
  cbv zeta.
  unfold _legacy_handle_registration, get_registration_status, register.
  cbn [fst snd].
  set (es0 := (if reregister config then _ else _) ++ _).
  set (logs := Log Debug <$> messages (check_answer pconn)).
  assert (deletions es0
          = (if reregister config
             then [Delete_registered_file; Delete_unregistered_file;
                   Delete_machine_id]
             else [])
          ∧ api_calls es0 = []) as [Hdel Hapi].
  { unfold es0. by destruct (reregister config). }
  assert (deletions logs = []) as Hlogs.
  { unfold logs, deletions. by apply filter_logs. }
  assert (∀ tail,
            deletions tail = [] →
            deletions (es0 ++ [Api_check] ++ (logs ++ tail))
            = (if reregister config
               then [Delete_registered_file; Delete_unregistered_file;
                     Delete_machine_id]
               else [])
            ∧ ∃ pre post,
                es0 ++ [Api_check] ++ (logs ++ tail)
                = pre ++ Api_check :: post
                ∧ api_calls pre = [] ∧ deletions post = [])
    as Hshape.
  { intros tail Htail. split.
    - unfold deletions in *. rewrite !List.filter_app.
      rewrite Hdel, Hlogs, Htail. simpl. by rewrite app_nil_r.
    - exists es0, (logs ++ tail).
      split; [done|]. split; [done|].
      unfold deletions in *. rewrite List.filter_app.
      by rewrite Hlogs, Htail. }
  destruct (unreachable (check_answer pconn)); cbn [fst snd].
  { rewrite <- (app_nil_r logs). by apply Hshape. }
  destruct (status (check_answer pconn)); cbn [fst snd].
  { destruct (register_option config); rewrite <- !app_assoc;
      by apply Hshape. }
  destruct (register_option config); cbn [fst snd].
  2:{ destruct (negb (falsy (unreg_date (check_answer pconn))));
        rewrite <- !app_assoc; by apply Hshape. }
  destruct (falsy (username config) && falsy (password config)
            && negb (auto_config config)
            && String.eqb (authmethod config) "BASIC");
    cbn [fst snd].
  { rewrite <- !app_assoc. by apply Hshape. }
  destruct (register_answer pconn) as [[[message hostname] g] d].
  destruct (falsy hostname); cbn [fst snd];
    [rewrite <- !app_assoc; by apply Hshape|].
  destruct (bool_decide (display_name config = None)),
    (bool_decide (group config = None)), (String.eqb message "");
    cbn [andb fst snd]; rewrite <- !app_assoc; by apply Hshape.
Qed.

(** X18: unregistration cleans up only on success: the unregistered
    marker is written and the cache files are deleted (and, in legacy
    mode, the scheduling removed) exactly when the answer is [True].
    In legacy mode the API is asked for the status first and asked to
    unregister only a reachable, registered host; otherwise it is asked
    to unregister straight away. *)
Theorem unregistration_cleans_up_on_success config pconn :
  let r := handle_unregistration config pconn in
  cleanup r.2
  = match r.1 with
    | Some true =>
        if legacy_upload config
        then [Write_unregistered_file None; Remove_scheduling;
              Delete_cache_files]
        else [Write_unregistered_file None; Delete_cache_files]
    | _ => []
    end
  ∧ api_calls r.2
    = (if legacy_upload config
       then if unreachable (check_answer pconn) then [Api_check]
            else if status (check_answer pconn)
                 then [Api_check; Api_unregister]
                 else [Api_check]
       else [Api_unregister]).
Proof.
  unfold handle_unregistration, _legacy_handle_unregistration,
    get_registration_status, cleanup, api_calls.
  destruct (legacy_upload config).
  - destruct (unreachable (check_answer pconn)); cbn [fst snd];
      [by filter_effects|].
    destruct (status (check_answer pconn)); cbn [fst snd];
      [destruct (unregister_answer pconn)|]; by filter_effects.
  - by destruct (unregister_answer pconn).
Qed.
End client_facts.
